(** * Piano: a shallow embedding of [src/components/piano.tsx]

    The development follows the source file top to bottom: the constant
    tables ([NOTES], [KEYBOARD_MAP], the sampler [urls]), the key table
    built by the body of [Piano] ([allKeys]), the [PianoKey] component with
    its handlers, and the two effects of [Piano] (sample loading and the
    wheel listener). *)

From Stdlib Require Import ZArith List String Ascii Bool Lia.
From Stdlib Require Import DecimalString Sorted.
From Equations Require Import Equations.
Import ListNotations.

Local Open Scope string_scope.
Local Open Scope Z_scope.

(** ** The pieces of JavaScript the component relies on *)

Module JS.

(** [String(n)] for an integral number, as a template literal prints it. *)
Definition number_to_string (n : Z) : string :=
  NilZero.string_of_int (Z.to_int n).

(** [s.includes(sub)]: some suffix of [s] starts with [sub]. *)
Fixpoint includes (s sub : string) : bool :=
  String.prefix sub s
  || match s with
     | EmptyString => false
     | String _ rest => includes rest sub
     end.

(** [s.replace(/c/g, by)] for a one-character pattern. *)
Fixpoint replace_char (c : ascii) (by_ : string) (s : string) : string :=
  match s with
  | EmptyString => EmptyString
  | String a rest =>
      if Ascii.eqb a c then by_ ++ replace_char c by_ rest
      else String a (replace_char c by_ rest)
  end.

(** An object with string values, as the list of its own properties in the
    order they were created. *)
Definition object := list (string * string).

(** An object literal: a property written twice keeps its first position
    and its last value. *)
Fixpoint set_property (o : object) (k v : string) : object :=
  match o with
  | [] => [(k, v)]
  | (k', v') :: rest =>
      if String.eqb k' k then (k', v) :: rest
      else (k', v') :: set_property rest k v
  end.

Definition object_literal (props : list (string * string)) : object :=
  fold_left (fun o kv => set_property o (fst kv) (snd kv)) props [].

Definition is_digit (a : ascii) : bool :=
  let n := N_of_ascii a in (48 <=? n)%N && (n <=? 57)%N.

Fixpoint digits_value (s : string) (acc : N) : N :=
  match s with
  | EmptyString => acc
  | String a rest => digits_value rest (10 * acc + (N_of_ascii a - 48))%N
  end.

Fixpoint all_digits (s : string) : bool :=
  match s with
  | EmptyString => true
  | String a rest => is_digit a && all_digits rest
  end.

(** A property key is an array index when it is the canonical decimal
    spelling of an integer below 2^32 - 1. *)
Definition array_index (k : string) : option N :=
  match k with
  | EmptyString => None
  | String a rest =>
      if all_digits k
         && (negb (Ascii.eqb a "0") || String.eqb rest EmptyString)
         && (digits_value k 0 <? 4294967295)%N
      then Some (digits_value k 0)
      else None
  end.

Fixpoint insert_index (e : N * (string * string))
    (l : list (N * (string * string))) : list (N * (string * string)) :=
  match l with
  | [] => [e]
  | e' :: rest =>
      if (fst e <=? fst e')%N then e :: l else e' :: insert_index e rest
  end.

Definition index_properties (o : object) : list (N * (string * string)) :=
  fold_right
    (fun kv acc =>
       match array_index (fst kv) with
       | Some i => insert_index (i, kv) acc
       | None => acc
       end) [] o.

Definition named_properties (o : object) : object :=
  filter (fun kv => match array_index (fst kv) with
                    | Some _ => false
                    | None => true
                    end) o.

(** [Object.entries(o)]: array-index keys in ascending numeric order, then
    the other keys in creation order. *)
Definition entries (o : object) : list (string * string) :=
  map snd (index_properties o) ++ named_properties o.

(** [arr.find(([_, value]) => value === id)?.[0]] *)
Definition find_key_of_value (es : list (string * string)) (id : string)
  : option string :=
  option_map fst (find (fun kv => String.eqb (snd kv) id) es).

(** Truthiness of an optional string ([undefined] and [""] are falsy). *)
Definition truthy (s : option string) : bool :=
  match s with
  | None => false
  | Some v => negb (String.eqb v EmptyString)
  end.

End JS.

(** ** Constants of the module *)

Definition NOTES : list string :=
  ["C"; "C#"; "D"; "D#"; "E"; "F"; "F#"; "G"; "G#"; "A"; "A#"; "B"].

Definition START_OCTAVE : Z := 3.
Definition END_OCTAVE : Z := 5.

Definition KEYBOARD_MAP : JS.object :=
  JS.object_literal
    [ ("z", "C3"); ("s", "C#3"); ("x", "D3"); ("d", "D#3"); ("c", "E3");
      ("v", "F3"); ("g", "F#3"); ("b", "G3"); ("h", "G#3"); ("n", "A3");
      ("j", "A#3"); ("m", "B3");
      ("q", "C4"); ("2", "C#4"); ("w", "D4"); ("3", "D#4"); ("e", "E4");
      ("r", "F4"); ("5", "F#4"); ("t", "G4"); ("6", "G#4"); ("y", "A4");
      ("7", "A#4"); ("u", "B4") ].

(** ** The key table built in the body of [Piano] *)

Record Key := mkKey {
  note : string;
  octave : Z;
  keyBinding : option string;
  isBlack : bool
}.

(** The template literal [`${note}${octave}`]. *)
Definition note_id (n : string) (o : Z) : string :=
  n ++ JS.number_to_string o.

Definition key_id (k : Key) : string := note_id (note k) (octave k).

(** One iteration of the inner loop: lines 194-195. *)
Definition push_key (oct : Z) (acc : list Key) (n : string) : list Key :=
  let kb := JS.find_key_of_value (JS.entries KEYBOARD_MAP) (note_id n oct) in
  (acc ++ [mkKey n oct kb (JS.includes n "#")])%list.

(** [for (const note of NOTES) { ... }] *)
Definition notes_loop (notes : list string) (oct : Z) (acc : list Key)
  : list Key :=
  fold_left (push_key oct) notes acc.

(** [for (let octave = lo; octave <= hi; octave++) { ... }] *)
Equations? octave_loop (notes : list string) (hi : Z) (oct : Z)
    (acc : list Key) : list Key by wf (Z.to_nat (hi + 1 - oct)) lt :=
  octave_loop notes hi oct acc with Z_le_gt_dec oct hi := {
    | left _ => octave_loop notes hi (oct + 1) (notes_loop notes oct acc)
    | right _ => acc }.
Proof. lia. Qed.

Definition allKeys : list Key :=
  octave_loop NOTES END_OCTAVE START_OCTAVE [].

(** ** The sampler created by [loadPiano] *)

Record Sampler := mkSampler {
  urls : JS.object;
  release : Z;
  baseUrl : string
}.

Definition newSampler : Sampler :=
  {| urls := JS.object_literal
       [ ("A0", "A0.mp3");
         ("C1", "C1.mp3"); ("D#1", "Ds1.mp3"); ("F#1", "Fs1.mp3");
         ("A1", "A1.mp3");
         ("C2", "C2.mp3"); ("D#2", "Ds2.mp3"); ("F#2", "Fs2.mp3");
         ("A2", "A2.mp3");
         ("C3", "C3.mp3"); ("D#3", "Ds3.mp3"); ("F#3", "Fs3.mp3");
         ("A3", "A3.mp3");
         ("C4", "C4.mp3"); ("D#4", "Ds4.mp3"); ("F#4", "Fs4.mp3");
         ("A4", "A4.mp3");
         ("C5", "C5.mp3"); ("D#5", "Ds5.mp3"); ("F#5", "Fs5.mp3");
         ("A5", "A5.mp3");
         ("C6", "C6.mp3"); ("D#6", "Ds6.mp3"); ("F#6", "Fs6.mp3");
         ("A6", "A6.mp3");
         ("C7", "C7.mp3"); ("D#7", "Ds7.mp3"); ("F#7", "Fs7.mp3");
         ("A7", "A7.mp3");
         ("C8", "C8.mp3") ];
     release := 1;
     baseUrl := "https://tonejs.github.io/audio/salamander/" |}.

(** The calls a sampler receives from the keys. *)
Inductive EngineCall :=
| triggerAttack (id : string)
| triggerRelease (id : string).

Definition is_attack (c : EngineCall) : bool :=
  match c with triggerAttack _ => true | triggerRelease _ => false end.

Definition is_release (c : EngineCall) : bool :=
  match c with triggerAttack _ => false | triggerRelease _ => true end.

(** ** The [PianoKey] component *)

Module PianoKey.

Record Props := mkProps {
  note : string;
  octave : Z;
  keyBinding : option string;
  isBlack : bool;
  sampler : option Sampler
}.

Record KeyboardEvent := mkKeyboardEvent {
  key : string;
  repeat : bool
}.

(** What a handler can touch: the [isPressed] state cell (written through
    [setIsPressed]), the sampler's calls, and the [preventDefault] flag of the
    event being handled. *)
Record World := mkWorld {
  pressed : bool;
  calls : list EngineCall;
  defaultPrevented : bool
}.

Definition M (A : Type) : Type := World -> A * World.

Definition ret {A} (a : A) : M A := fun w => (a, w).

Definition bind {A B} (m : M A) (f : A -> M B) : M B :=
  fun w => let (a, w') := m w in f a w'.

Notation "m ;; k" := (bind m (fun _ => k))
  (at level 61, right associativity).

Definition setIsPressed (b : bool) : M unit :=
  fun w => (tt, mkWorld b (calls w) (defaultPrevented w)).

Definition engine_call (c : EngineCall) : M unit :=
  fun w => (tt, mkWorld (pressed w) (calls w ++ [c])%list (defaultPrevented w)).

Definition preventDefault : M unit :=
  fun w => (tt, mkWorld (pressed w) (calls w) true).

(** [e.key === keyBinding] *)
Definition key_matches (k : string) (kb : option string) : bool :=
  match kb with
  | Some b => String.eqb k b
  | None => false
  end.

Section Render.

Variable props : Props.
(** The value of the [isPressed] state at this render. *)
Variable isPressed : bool.

Definition playNote : M unit :=
  match sampler props with
  | Some _ =>
      engine_call (triggerAttack (note_id (note props) (octave props))) ;;
      setIsPressed true
  | None => ret tt
  end.

Definition stopNote : M unit :=
  match sampler props with
  | Some _ =>
      engine_call (triggerRelease (note_id (note props) (octave props))) ;;
      setIsPressed false
  | None => ret tt
  end.

Definition handleKeyDown (e : KeyboardEvent) : M unit :=
  if key_matches (key e) (keyBinding props) && negb (repeat e)
  then playNote else ret tt.

Definition handleKeyUp (e : KeyboardEvent) : M unit :=
  if key_matches (key e) (keyBinding props) then stopNote else ret tt.

(** The effect registers the two window listeners only for a truthy
    binding. *)
Definition window_keydown (e : KeyboardEvent) : M unit :=
  if JS.truthy (keyBinding props) then handleKeyDown e else ret tt.

Definition window_keyup (e : KeyboardEvent) : M unit :=
  if JS.truthy (keyBinding props) then handleKeyUp e else ret tt.

Definition onTouchStart : M unit := preventDefault ;; playNote.
Definition onTouchEnd : M unit := stopNote.
Definition onMouseDown : M unit := playNote.
Definition onMouseUp : M unit := stopNote.
Definition onMouseLeave : M unit := if isPressed then stopNote else ret tt.

Definition keyLabel : string :=
  if JS.truthy (keyBinding props)
  then note_id (note props) (octave props)
       ++ (match keyBinding props with
           | Some b => " (" ++ b ++ ")"
           | None => ""
           end)
  else note_id (note props) (octave props).

End Render.

(** The events a mounted key reacts to: those of its button and the two
    window events. *)
Inductive ButtonEvent :=
| TouchStart
| TouchEnd
| MouseDown
| MouseUp
| MouseLeave.

Inductive WindowEvent :=
| KeyDown (e : KeyboardEvent)
| KeyUp (e : KeyboardEvent).

Inductive Event :=
| OnButton (b : ButtonEvent)
| OnWindow (k : WindowEvent).

Definition handler (props : Props) (isPressed : bool) (ev : Event) : M unit :=
  match ev with
  | OnButton TouchStart => onTouchStart props
  | OnButton TouchEnd => onTouchEnd props
  | OnButton MouseDown => onMouseDown props
  | OnButton MouseUp => onMouseUp props
  | OnButton MouseLeave => onMouseLeave props isPressed
  | OnWindow (KeyDown e) => window_keydown props e
  | OnWindow (KeyUp e) => window_keyup props e
  end.

(** One event on a mounted key: the handlers of the current render run on
    the world, with a fresh [preventDefault] flag. *)
Definition step (props : Props) (w : World) (ev : Event) : World :=
  snd (handler props (pressed w) ev
         (mkWorld (pressed w) (calls w) false)).

Definition run (props : Props) (w : World) (evs : list Event) : World :=
  fold_left (step props) evs w.

Definition released : World := mkWorld false [] false.

(** *** Vocabulary for the statements about a key *)

(** The identifier a key sends to the sampler. *)
Definition id_of (props : Props) : string :=
  note_id (note props) (octave props).

Definition releases (cs : list EngineCall) : nat :=
  List.length (filter is_release cs).

(** The events that start the note of a key: touch-start, mouse-down, and a
    first key-down of its (truthy) binding. *)
Definition is_press_for (props : Props) (ev : Event) : bool :=
  match ev with
  | OnButton TouchStart | OnButton MouseDown => true
  | OnWindow (KeyDown e) =>
      JS.truthy (keyBinding props)
      && key_matches (key e) (keyBinding props) && negb (repeat e)
  | _ => false
  end.

(** The events that stop it unconditionally: touch-end, mouse-up, and a
    key-up of its (truthy) binding. *)
Definition is_release_for (props : Props) (ev : Event) : bool :=
  match ev with
  | OnButton TouchEnd | OnButton MouseUp => true
  | OnWindow (KeyUp e) =>
      JS.truthy (keyBinding props) && key_matches (key e) (keyBinding props)
  | _ => false
  end.

(** The pressed state after a run of calls: that of the last call, if any. *)
Definition pressed_after (p0 : bool) (cs : list EngineCall) : bool :=
  fold_left (fun _ c => is_attack c) cs p0.

End PianoKey.

(** ** The [Piano] component *)

Module Piano.

Record WheelEvent := mkWheelEvent {
  deltaX : Z;
  deltaY : Z;
  deltaMode : Z
}.

(** The scroll container [div]: its horizontal offset and the number of
    [handleWheel] listeners attached to it. *)
Record Container := mkContainer {
  scrollLeft : Z;
  wheelListeners : nat
}.

(** [handleWheel], closed over the container; the boolean tells whether
    [e.preventDefault()] was called. Deltas and offsets are taken as
    integers, and the assignment to [scrollLeft] stores the sum as written
    (the browser's clamping to the scrollable width is not modelled). *)
Definition handleWheel (e : WheelEvent) (c : Container) : Container * bool :=
  if negb (deltaY e =? 0)
  then (mkContainer (scrollLeft c + deltaY e) (wheelListeners c), true)
  else (c, false).

(** What exists only while the keyboard branch of the view is rendered: the
    container and the [isPressed] cell of every [PianoKey], in the order of
    [allKeys]. *)
Record Keyboard := mkKeyboard {
  container : Container;
  pressedKeys : list bool
}.

Record State := mkState {
  isLoading : bool;
  samplerRef : option Sampler;
  (** a [loadPiano] call suspended at [await Tone.loaded()] *)
  pending : option Sampler;
  (** the rendered keyboard; [scrollContainerRef.current] is its container *)
  keyboard : option Keyboard;
  engine : list EngineCall;
  disposed : list Sampler
}.

(** The props [Piano] passes to the key at each position. *)
Definition key_props (smp : option Sampler) (k : Key) : PianoKey.Props :=
  PianoKey.mkProps (note k) (octave k) (keyBinding k) (isBlack k) smp.

Definition rendered_keys (st : State) : list PianoKey.Props :=
  if isLoading st then [] else map (key_props (samplerRef st)) allKeys.

(** Commit of a render: the placeholder while loading, otherwise the
    container with one key per entry of [allKeys]; what is already mounted
    is kept. *)
Definition commit (st : State) : State :=
  if isLoading st
  then mkState (isLoading st) (samplerRef st) (pending st) None
         (engine st) (disposed st)
  else match keyboard st with
       | Some _ => st
       | None =>
           mkState (isLoading st) (samplerRef st) (pending st)
             (Some (mkKeyboard (mkContainer 0 0)
                      (map (fun _ => false) allKeys)))
             (engine st) (disposed st)
       end.

(** [loadPiano] up to [await Tone.loaded()]. *)
Definition loadPiano_start (st : State) : State :=
  let disposed' :=
    match samplerRef st with
    | Some old => (disposed st ++ [old])%list
    | None => disposed st
    end in
  mkState true (samplerRef st) (Some newSampler) (keyboard st)
    (engine st) disposed'.

(** [loadPiano] after the samples are loaded. *)
Definition loadPiano_resume (st : State) : State :=
  match pending st with
  | Some s => mkState false (Some s) None (keyboard st) (engine st)
                (disposed st)
  | None => st
  end.

(** The second effect: it reads [scrollContainerRef.current] when it runs. *)
Definition wheel_effect (st : State) : State :=
  match keyboard st with
  | Some kb =>
      mkState (isLoading st) (samplerRef st) (pending st)
        (Some (mkKeyboard
                 (mkContainer (scrollLeft (container kb))
                    (S (wheelListeners (container kb))))
                 (pressedKeys kb)))
        (engine st) (disposed st)
  | None => st
  end.

Definition initial : State := mkState true None None None [] [].

(** Mount: first render and commit, then both effects in order (their
    dependency lists are empty, they never run again). *)
Definition mount : State := wheel_effect (loadPiano_start (commit initial)).

Fixpoint set_nth {A} (i : nat) (x : A) (l : list A) : list A :=
  match l, i with
  | [], _ => []
  | _ :: rest, O => x :: rest
  | y :: rest, S j => y :: set_nth j x rest
  end.

(** A window event reaches the listeners of every mounted key, in mount
    order. *)
Fixpoint dispatch_window (ps : list PianoKey.Props) (sts : list bool)
    (ev : PianoKey.WindowEvent) (eng : list EngineCall)
  : list bool * list EngineCall :=
  match ps, sts with
  | p :: ps', s :: sts' =>
      let w := PianoKey.step p (PianoKey.mkWorld s eng false)
                 (PianoKey.OnWindow ev) in
      let (sts'', eng') := dispatch_window ps' sts' ev (PianoKey.calls w) in
      (PianoKey.pressed w :: sts'', eng')
  | _, _ => (sts, eng)
  end.

(** A wheel event on the container runs every listener attached to it. *)
Fixpoint run_wheel_listeners (n : nat) (e : WheelEvent) (c : Container)
  : Container * bool :=
  match n with
  | O => (c, false)
  | S m =>
      let (c1, p1) := handleWheel e c in
      let (c2, p2) := run_wheel_listeners m e c1 in
      (c2, p1 || p2)
  end.

Definition dispatch_wheel (e : WheelEvent) (c : Container)
  : Container * bool :=
  run_wheel_listeners (wheelListeners c) e c.

Inductive Action :=
| SamplesLoaded
| Button (i : nat) (ev : PianoKey.ButtonEvent)
| Window (ev : PianoKey.WindowEvent)
| Wheel (e : WheelEvent).

Definition step (st : State) (a : Action) : State :=
  match a with
  | SamplesLoaded => commit (loadPiano_resume st)
  | Button i ev =>
      match keyboard st with
      | Some kb =>
          match nth_error (rendered_keys st) i, nth_error (pressedKeys kb) i with
          | Some p, Some s =>
              let w := PianoKey.step p (PianoKey.mkWorld s (engine st) false)
                         (PianoKey.OnButton ev) in
              mkState (isLoading st) (samplerRef st) (pending st)
                (Some (mkKeyboard (container kb)
                         (set_nth i (PianoKey.pressed w) (pressedKeys kb))))
                (PianoKey.calls w) (disposed st)
          | _, _ => st
          end
      | None => st
      end
  | Window ev =>
      match keyboard st with
      | Some kb =>
          let (sts, eng) :=
            dispatch_window (rendered_keys st) (pressedKeys kb) ev
              (engine st) in
          mkState (isLoading st) (samplerRef st) (pending st)
            (Some (mkKeyboard (container kb) sts)) eng (disposed st)
      | None => st
      end
  | Wheel e =>
      match keyboard st with
      | Some kb =>
          mkState (isLoading st) (samplerRef st) (pending st)
            (Some (mkKeyboard (fst (dispatch_wheel e (container kb)))
                     (pressedKeys kb)))
            (engine st) (disposed st)
      | None => st
      end
  end.

Definition run (acts : list Action) : State := fold_left step acts mount.

(** Whether the wheel event had its default prevented in state [st]. *)
Definition wheel_prevented (st : State) (e : WheelEvent) : bool :=
  match keyboard st with
  | Some kb => snd (dispatch_wheel e (container kb))
  | None => false
  end.

Definition scroll_offset (st : State) : option Z :=
  option_map (fun kb => scrollLeft (container kb)) (keyboard st).

(** *** Vocabulary for the statements about the keyboard *)

(** What holds in every state the component can reach: keys are rendered
    only once loading is over, with a sampler in place, one pressed cell per
    key, and no wheel listener on the container. *)
Definition invariant (st : State) : Prop :=
  (isLoading st = false -> exists s, samplerRef st = Some s)
  /\ (forall kb, keyboard st = Some kb ->
        isLoading st = false
        /\ List.length (pressedKeys kb) = List.length allKeys
        /\ wheelListeners (container kb) = O).

(** Whether the window listeners of key [k] react to the physical key
    [pk]: the key has a truthy binding, equal to [pk]. *)
Definition hears (pk : string) (k : Key) : bool :=
  JS.truthy (keyBinding k) && PianoKey.key_matches pk (keyBinding k).

Fixpoint press_hearing (pk : string) (keys : list Key) (sts : list bool)
  : list bool :=
  match keys, sts with
  | k :: ks, s :: ss =>
      (if hears pk k then true else s) :: press_hearing pk ks ss
  | _, _ => sts
  end.

(** The state reached by a first (not repeated) key-down of [pk]. *)
Definition keydown (st : State) (pk : string) : State :=
  step st (Window (PianoKey.KeyDown (PianoKey.mkKeyboardEvent pk false))).

(** The state reached by an auto-repeated key-down of [pk]. *)
Definition keydown_repeated (st : State) (pk : string) : State :=
  step st (Window (PianoKey.KeyDown (PianoKey.mkKeyboardEvent pk true))).

Definition pressed_at (st : State) (i : nat) : option bool :=
  match keyboard st with
  | Some kb => nth_error (pressedKeys kb) i
  | None => None
  end.

(** Every bound key of the table is the only one that hears its binding. *)
Definition binding_heard_once (k : Key) : bool :=
  match keyBinding k with
  | Some pk =>
      hears pk k
      && match filter (hears pk) allKeys with
         | [k'] => String.eqb (key_id k') (key_id k)
         | _ => false
         end
  | None => true
  end.

(** The state reached by a key-up of [pk]. *)
Definition keyup (st : State) (pk : string) : State :=
  step st (Window (PianoKey.KeyUp (PianoKey.mkKeyboardEvent pk false))).

Fixpoint release_hearing (pk : string) (keys : list Key) (sts : list bool)
  : list bool :=
  match keys, sts with
  | k :: ks, s :: ss =>
      (if hears pk k then false else s) :: release_hearing pk ks ss
  | _, _ => sts
  end.

Definition is_loaded (a : Action) : bool :=
  match a with SamplesLoaded => true | _ => false end.

Definition call_id (c : EngineCall) : string :=
  match c with triggerAttack id => id | triggerRelease id => id end.

(** Whether the last call of the log that names [id] is an attack. *)
Definition sounding (id : string) (log : list EngineCall) : bool :=
  fold_left
    (fun b c => if String.eqb (call_id c) id then is_attack c else b)
    log false.

(** The states after loading: the one sampler of [mount] in place, nothing
    pending or disposed, the keyboard rendered with an untouched
    container. *)
Definition ready_state (st : State) : Prop :=
  isLoading st = false
  /\ samplerRef st = Some newSampler
  /\ pending st = None
  /\ disposed st = []
  /\ exists sts, List.length sts = List.length allKeys
                 /\ keyboard st = Some (mkKeyboard (mkContainer 0 0) sts).

(** The pressed cells agree with the log: each key is pressed exactly when
    it is sounding. *)
Definition mirrors (keys : list Key) (sts : list bool)
    (log : list EngineCall) : Prop :=
  Forall2 (fun k s => s = sounding (key_id k) log) keys sts.

End Piano.

(** ** Vocabulary for the statements about the tables *)

Fixpoint distinct (l : list string) : bool :=
  match l with
  | [] => true
  | x :: rest => negb (existsb (String.eqb x) rest) && distinct rest
  end.

(** The key pushed for note [n] in octave [o]. *)
Definition make_key (o : Z) (n : string) : Key :=
  mkKey n o (JS.find_key_of_value (JS.entries KEYBOARD_MAP) (note_id n o))
    (JS.includes n "#").

(** The octaves [lo, lo+1, ...], [n] of them. *)
Fixpoint octaves_from (lo : Z) (n : nat) : list Z :=
  match n with
  | O => []
  | S m => lo :: octaves_from (lo + 1) m
  end.

(** Position of a note name in [NOTES] (its semitone index). *)
Fixpoint index_of (n : string) (l : list string) : nat :=
  match l with
  | [] => O
  | x :: rest => if String.eqb x n then O else S (index_of n rest)
  end.

Definition semitone (n : string) : nat := index_of n NOTES.

(** Octave first, then semitone index. *)
Definition key_lt (a b : Key) : Prop :=
  octave a < octave b
  \/ (octave a = octave b /\ (semitone (note a) < semitone (note b))%nat).

Definition key_ltb (a b : Key) : bool :=
  (octave a <? octave b)
  || ((octave a =? octave b)
      && (semitone (note a) <? semitone (note b))%nat).

Fixpoint ascendingb (l : list Key) : bool :=
  match l with
  | a :: (b :: _) as rest => key_ltb a b && ascendingb rest
  | _ => true
  end.

Definition keys_with_id (id : string) : list Key :=
  filter (fun k => String.eqb (key_id k) id) allKeys.

Definition entry_resolved (e : string * string) : bool :=
  match keys_with_id (snd e) with
  | [k] =>
      match keyBinding k with
      | Some b => String.eqb b (fst e)
      | None => false
      end
  | _ => false
  end.

(** The file name convention of the sample set: the identifier with every
    [#] spelled [s], followed by [.mp3]. *)
Definition sample_filename (id : string) : string :=
  JS.replace_char "#" "s" id ++ ".mp3".

(** The identifiers of the sample set: A0, then C, D#, F# and A of the
    registers 1 to 7, then C8. *)
Definition sampled_ids : list string :=
  ["A0"]
  ++ flat_map (fun r => map (fun n => note_id n r) ["C"; "D#"; "F#"; "A"])
       [1; 2; 3; 4; 5; 6; 7]
  ++ ["C8"].

(** The identifiers [n ++ r] with [n] one of [NOTES] and a register [r] of
    0..8. *)
Definition register_ids (r : Z) : list string :=
  map (fun n => note_id n r) NOTES.

Definition in_register (r : Z) (id : string) : bool :=
  existsb (String.eqb id) (register_ids r).

Definition registers : list Z := [0; 1; 2; 3; 4; 5; 6; 7; 8].

(** * Properties *)

(** ** The embedding on concrete inputs *)

Example number_to_string_examples :
  map JS.number_to_string [0; 3; 10; -2] = ["0"; "3"; "10"; "-2"].
Proof. reflexivity. Qed.

Example array_index_examples :
  map JS.array_index ["7"; "07"; "q"; ""; "4294967294"; "4294967295"]
  = [Some 7%N; None; None; None; Some 4294967294%N; None].
Proof. reflexivity. Qed.

Example object_literal_example :
  JS.entries (JS.object_literal [("b", "1"); ("10", "2"); ("b", "3"); ("2", "4")])
  = [("2", "4"); ("10", "2"); ("b", "3")].
Proof. reflexivity. Qed.

Example KEYBOARD_MAP_entries_order :
  map fst (JS.entries KEYBOARD_MAP)
  = ["2"; "3"; "5"; "6"; "7"; "z"; "s"; "x"; "d"; "c"; "v"; "g"; "b"; "h";
     "n"; "j"; "m"; "q"; "w"; "e"; "r"; "t"; "y"; "u"].
Proof. reflexivity. Qed.

Example allKeys_first_octave :
  firstn 3 allKeys
  = [mkKey "C" 3 (Some "z") false; mkKey "C#" 3 (Some "s") true;
     mkKey "D" 3 (Some "x") false]
  /\ nth_error allKeys 12 = Some (mkKey "C" 4 (Some "q") false)
  /\ nth_error allKeys 35 = Some (mkKey "B" 5 None false).
Proof. repeat split. Qed.

Example keyLabel_examples :
  PianoKey.keyLabel (PianoKey.mkProps "C" 4 (Some "q") false None) = "C4 (q)"
  /\ PianoKey.keyLabel (PianoKey.mkProps "B" 5 None false None) = "B5".
Proof. split; reflexivity. Qed.

Example mount_then_load :
  Piano.isLoading Piano.mount = true
  /\ Piano.keyboard Piano.mount = None
  /\ Piano.isLoading (Piano.run [Piano.SamplesLoaded]) = false
  /\ Piano.samplerRef (Piano.run [Piano.SamplesLoaded]) = Some newSampler
  /\ option_map Piano.container (Piano.keyboard (Piano.run [Piano.SamplesLoaded]))
     = Some (Piano.mkContainer 0 0).
Proof. repeat split. Qed.

(** ** Shared list and string facts *)

Lemma distinct_NoDup (l : list string) : distinct l = true -> NoDup l.
Proof.
  induction l as [|x rest IH]; simpl; intros H.
  - constructor.
  - apply andb_prop in H as [Hx Hrest].
    constructor; [|now apply IH].
    intros Hin.
    assert (existsb (String.eqb x) rest = true) as E.
    { apply existsb_exists. exists x. split; [assumption|apply String.eqb_refl]. }
    rewrite E in Hx. discriminate.
Qed.

(** [includes] with a one-character needle finds exactly the strings that
    hold this character at some position. *)
Lemma includes_char (c : ascii) (s : string) :
  JS.includes s (String c EmptyString) = true
  <-> exists i, String.get i s = Some c.
Proof.
  induction s as [|a rest IH].
  - simpl. split; [discriminate|]. intros [i Hi]. destruct i; discriminate.
  - change (JS.includes (String a rest) (String c EmptyString))
      with (String.prefix (String c EmptyString) (String a rest)
            || JS.includes rest (String c EmptyString)).
    rewrite orb_true_iff, IH. simpl.
    split.
    + intros [H|[i Hi]].
      * exists O. simpl. destruct (ascii_dec c a) as [->|]; [reflexivity|].
        discriminate.
      * exists (S i). exact Hi.
    + intros [[|i] Hi]; simpl in Hi.
      * left. injection Hi as ->. destruct (ascii_dec c c); [|congruence].
        now destruct rest.
      * right. now exists i.
Qed.

(** ** The key table *)

Lemma notes_loop_spec (notes : list string) (o : Z) (acc : list Key) :
  notes_loop notes o acc = (acc ++ map (make_key o) notes)%list.
Proof.
  unfold notes_loop. revert acc.
  induction notes as [|n rest IH]; intros acc; simpl.
  - now rewrite app_nil_r.
  - rewrite IH. unfold push_key. now rewrite <- app_assoc.
Qed.

Lemma octave_loop_spec (notes : list string) (hi oct : Z) (acc : list Key) :
  octave_loop notes hi oct acc =
  (acc ++ flat_map (fun o => map (make_key o) notes)
            (octaves_from oct (Z.to_nat (hi + 1 - oct))))%list.
Proof.
  funelim (octave_loop notes hi oct acc).
  - rewrite H. rewrite notes_loop_spec, <- app_assoc. f_equal.
    replace (Z.to_nat (hi + 1 - oct)) with (S (Z.to_nat (hi + 1 - (oct + 1))))
      by lia.
    reflexivity.
  - replace (Z.to_nat (hi + 1 - oct)) with O by lia.
    simpl. now rewrite app_nil_r.
Qed.

Lemma in_octaves_from (lo : Z) (n : nat) (o : Z) :
  In o (octaves_from lo n) <-> lo <= o < lo + Z.of_nat n.
Proof.
  revert lo. induction n as [|m IH]; intros lo; simpl.
  - lia.
  - rewrite IH. lia.
Qed.

Lemma allKeys_rows :
  allKeys = flat_map (fun o => map (make_key o) NOTES) [3; 4; 5].
Proof. unfold allKeys. rewrite octave_loop_spec. reflexivity. Qed.

Lemma in_allKeys (k : Key) :
  In k allKeys
  <-> exists n o, In n NOTES /\ 3 <= o <= 5 /\ k = make_key o n.
Proof.
  unfold allKeys. rewrite octave_loop_spec, app_nil_l, in_flat_map. split.
  - intros (o & Ho & Hk). apply in_map_iff in Hk as (n & <- & Hn).
    apply in_octaves_from in Ho. exists n, o.
    unfold START_OCTAVE, END_OCTAVE in Ho. repeat split; try assumption; lia.
  - intros (n & o & Hn & Ho & ->). exists o. split.
    + apply in_octaves_from. unfold START_OCTAVE, END_OCTAVE. lia.
    + now apply in_map.
Qed.

Lemma key_ltb_lt (a b : Key) : key_ltb a b = true <-> key_lt a b.
Proof.
  unfold key_ltb, key_lt.
  rewrite orb_true_iff, andb_true_iff, Z.ltb_lt, Z.eqb_eq, Nat.ltb_lt.
  reflexivity.
Qed.

Lemma ascendingb_Sorted (l : list Key) :
  ascendingb l = true -> Sorted key_lt l.
Proof.
  induction l as [|a rest IH]; intros H; [constructor|].
  destruct rest as [|b rest'].
  - repeat constructor.
  - simpl in H. apply andb_prop in H as [Hab Hrest].
    constructor; [now apply IH|]. constructor. now apply key_ltb_lt.
Qed.

Lemma key_lt_trans (a b c : Key) : key_lt a b -> key_lt b c -> key_lt a c.
Proof. unfold key_lt. lia. Qed.

(** C1. The key table has exactly 36 entries: one for every note of the 12
    [NOTES] and every octave from 3 to 5 and nothing else, each identifier
    once, in strictly ascending order of octave and then of semitone
    index. *)
Theorem allKeys_cross_product_sorted :
  List.length NOTES = 12%nat
  /\ List.length allKeys = 36%nat
  /\ (forall n o, In n NOTES /\ 3 <= o <= 5
        <-> exists k, In k allKeys /\ note k = n /\ octave k = o)
  /\ NoDup (map key_id allKeys)
  /\ map (fun k => (octave k, note k)) allKeys
     = flat_map (fun o => map (fun n => (o, n)) NOTES) [3; 4; 5]
  /\ StronglySorted key_lt allKeys.
Proof.
  split; [reflexivity|]. split; [reflexivity|]. split; [|split; [|split]].
  - intros n o. split.
    + intros [Hn Ho]. exists (make_key o n). split; [|split; reflexivity].
      apply in_allKeys. now exists n, o.
    + intros (k & Hk & <- & <-).
      apply in_allKeys in Hk as (n & o & Hn & Ho & ->). now split.
  - apply distinct_NoDup. vm_compute. reflexivity.
  - rewrite allKeys_rows. reflexivity.
  - apply Sorted_StronglySorted.
    + intros a b c. apply key_lt_trans.
    + apply ascendingb_Sorted. vm_compute. reflexivity.
Qed.

(** C2. A key of the table is black exactly when its note name holds the
    character [#] at some position; each octave has 12 keys, 5 of them
    black. *)
Theorem isBlack_iff_sharp_five_per_octave :
  (forall k, In k allKeys ->
     (isBlack k = true <-> exists i, String.get i (note k) = Some "#"%char))
  /\ List.length (filter (fun n => JS.includes n "#") NOTES) = 5%nat
  /\ (forall o, 3 <= o <= 5 ->
        List.length (filter (fun k => octave k =? o) allKeys) = 12%nat
        /\ List.length
             (filter (fun k => (octave k =? o) && isBlack k) allKeys)
           = 5%nat).
Proof.
  split; [|split].
  - intros k Hk. apply in_allKeys in Hk as (n & o & _ & _ & ->).
    simpl. apply includes_char.
  - reflexivity.
  - intros o Ho.
    assert (o = 3 \/ o = 4 \/ o = 5) as [->|[->| ->]] by lia;
      split; vm_compute; reflexivity.
Qed.

(** ** The key-binding map *)

Lemma NoDup_values_injective {A B} (l : list (A * B)) :
  NoDup (map snd l) ->
  forall k1 k2 v, In (k1, v) l -> In (k2, v) l -> k1 = k2.
Proof.
  induction l as [|[k v'] rest IH]; simpl; intros Hnd k1 k2 v H1 H2.
  - contradiction.
  - inversion Hnd as [|? ? Hnotin Hrest]; subst.
    destruct H1 as [H1|H1], H2 as [H2|H2].
    + congruence.
    + injection H1 as -> ->. exfalso. apply Hnotin.
      change v with (snd (k2, v)). now apply in_map.
    + injection H2 as -> ->. exfalso. apply Hnotin.
      change v with (snd (k1, v)). now apply in_map.
    + now apply (IH Hrest k1 k2 v).
Qed.

Lemma KEYBOARD_MAP_values_distinct :
  NoDup (map snd (JS.entries KEYBOARD_MAP)).
Proof. apply distinct_NoDup. vm_compute. reflexivity. Qed.

(** C3. The key-binding map has exactly 24 entries, under 24 different
    physical keys, and no two of them carry the same note identifier. *)
Theorem KEYBOARD_MAP_24_injective :
  List.length (JS.entries KEYBOARD_MAP) = 24%nat
  /\ NoDup (map fst (JS.entries KEYBOARD_MAP))
  /\ NoDup (map snd (JS.entries KEYBOARD_MAP))
  /\ (forall k1 k2 v,
        In (k1, v) (JS.entries KEYBOARD_MAP) ->
        In (k2, v) (JS.entries KEYBOARD_MAP) -> k1 = k2).
Proof.
  split; [reflexivity|]. split; [|split].
  - apply distinct_NoDup. vm_compute. reflexivity.
  - exact KEYBOARD_MAP_values_distinct.
  - apply NoDup_values_injective. exact KEYBOARD_MAP_values_distinct.
Qed.

(** The reverse scan returns a physical key exactly for the identifiers that
    are values of the scanned entries. *)
Lemma find_key_of_value_Some (es : list (string * string)) (id pk : string) :
  NoDup (map snd es) ->
  JS.find_key_of_value es id = Some pk <-> In (pk, id) es.
Proof.
  intros Hnd. unfold JS.find_key_of_value. split.
  - destruct (find _ es) as [[k v]|] eqn:E; simpl; [|discriminate].
    intros [= ->]. apply find_some in E as [Hin Heq].
    simpl in Heq. apply String.eqb_eq in Heq. now subst.
  - intros Hin.
    destruct (find _ es) as [[k v]|] eqn:E; simpl.
    + apply find_some in E as [Hin' Heq]. simpl in Heq.
      apply String.eqb_eq in Heq. subst v.
      f_equal. exact (NoDup_values_injective es Hnd k pk id Hin' Hin).
    + exfalso. apply (find_none _ _ E) in Hin. simpl in Hin.
      rewrite String.eqb_refl in Hin. discriminate.
Qed.

(** C4. Every entry (physical key, identifier) of the key-binding map
    selects exactly one key of the table, whose binding is that physical
    key; and a key of the table has binding [pk] exactly when (pk, its
    identifier) is an entry, so a key whose identifier is no value of the
    map has no binding. *)
Theorem keyBinding_matches_KEYBOARD_MAP :
  (forall pk id, In (pk, id) (JS.entries KEYBOARD_MAP) ->
     exists k, keys_with_id id = [k] /\ keyBinding k = Some pk)
  /\ (forall k, In k allKeys ->
        forall pk, keyBinding k = Some pk
                   <-> In (pk, key_id k) (JS.entries KEYBOARD_MAP))
  /\ (forall k, In k allKeys ->
        (forall pk, ~ In (pk, key_id k) (JS.entries KEYBOARD_MAP)) ->
        keyBinding k = None).
Proof.
  assert (forall k, In k allKeys ->
            forall pk, keyBinding k = Some pk
                       <-> In (pk, key_id k) (JS.entries KEYBOARD_MAP)) as Hiff.
  { intros k Hk pk. apply in_allKeys in Hk as (n & o & _ & _ & ->).
    unfold make_key, key_id. simpl.
    apply find_key_of_value_Some. exact KEYBOARD_MAP_values_distinct. }
  split; [|split].
  - intros pk id Hin.
    assert (forallb entry_resolved (JS.entries KEYBOARD_MAP) = true) as Hall
      by (vm_compute; reflexivity).
    rewrite forallb_forall in Hall. specialize (Hall _ Hin).
    unfold entry_resolved in Hall. simpl in Hall.
    destruct (keys_with_id id) as [|k [|k' rest]]; try discriminate.
    exists k. split; [reflexivity|].
    destruct (keyBinding k) as [b|]; [|discriminate].
    apply String.eqb_eq in Hall. now subst.
  - exact Hiff.
  - intros k Hk Hno. destruct (keyBinding k) as [b|] eqn:E; [|reflexivity].
    exfalso. apply (Hno b). now apply Hiff.
Qed.

(** ** The sampler configuration *)

(** C5, as the spec has it, fails: the table declares 30 files, not 31. *)
Lemma sampler_urls_not_31 :
  List.length (JS.entries (urls newSampler)) = 30%nat
  /\ Nat.eqb (List.length (JS.entries (urls newSampler))) 31 = false.
Proof. split; reflexivity. Qed.

(** C5, amended. The sampler declares exactly 30 sample files, one per
    sampled identifier; every identifier is a note of a register between 0
    and 8, every such register has a sample, and every file name is the
    identifier with sharps spelled [s] and the suffix [.mp3]; the entry for
    D#3 is [Ds3.mp3]. *)
Theorem sampler_urls_30_files :
  List.length (JS.entries (urls newSampler)) = 30%nat
  /\ map fst (JS.entries (urls newSampler)) = sampled_ids
  /\ NoDup (map fst (JS.entries (urls newSampler)))
  /\ NoDup (map snd (JS.entries (urls newSampler)))
  /\ (forall id file, In (id, file) (JS.entries (urls newSampler)) ->
        file = sample_filename id
        /\ exists r, In r registers /\ in_register r id = true)
  /\ (forall r, 0 <= r <= 8 ->
        exists id file, In (id, file) (JS.entries (urls newSampler))
                        /\ in_register r id = true)
  /\ In ("D#3", "Ds3.mp3") (JS.entries (urls newSampler)).
Proof.
  split; [reflexivity|]. split; [reflexivity|].
  split; [apply distinct_NoDup; vm_compute; reflexivity|].
  split; [apply distinct_NoDup; vm_compute; reflexivity|].
  split; [|split].
  - intros id file Hin.
    assert (forallb
              (fun e => String.eqb (snd e) (sample_filename (fst e))
                        && existsb (fun r => in_register r (fst e)) registers)
              (JS.entries (urls newSampler)) = true) as Hall
      by (vm_compute; reflexivity).
    rewrite forallb_forall in Hall. specialize (Hall _ Hin).
    cbn [fst snd] in Hall. apply andb_prop in Hall as [Hname Hreg].
    apply String.eqb_eq in Hname. split; [assumption|].
    apply existsb_exists in Hreg as (r & Hr & Hid). now exists r.
  - intros r Hr.
    assert (existsb (fun e => in_register r (fst e))
              (JS.entries (urls newSampler)) = true) as Hex.
    { assert (r = 0 \/ r = 1 \/ r = 2 \/ r = 3 \/ r = 4 \/ r = 5 \/ r = 6
              \/ r = 7 \/ r = 8) as Hcases by lia.
      repeat (destruct Hcases as [->|Hcases]; [vm_compute; reflexivity|]).
      subst r. vm_compute. reflexivity. }
    apply existsb_exists in Hex as ([id file] & Hin & Hid).
    now exists id, file.
  - vm_compute. tauto.
Qed.

(** ** A single key *)

Module PianoKeyFacts.
Import PianoKey.

(** Without a sampler no event changes the pressed state or the calls. *)
Lemma step_without_sampler (props : Props) (w : World) (ev : Event) :
  sampler props = None ->
  pressed (step props w ev) = pressed w /\ calls (step props w ev) = calls w.
Proof.
  intros Hs. unfold step.
  destruct ev as [[| | | |]|[e|e]]; simpl;
    unfold onTouchStart, onTouchEnd, onMouseDown, onMouseUp, onMouseLeave,
      window_keydown, window_keyup, handleKeyDown, handleKeyUp,
      playNote, stopNote, bind;
    rewrite Hs; simpl;
    repeat match goal with
           | |- context [if ?b then _ else _] => destruct b
           end; simpl; split; reflexivity.
Qed.

(** C6. While the sampler of a key is null, any sequence of button and
    window events on it sends no call to the engine and leaves its pressed
    state as it was. *)
Theorem no_sampler_no_effect (props : Props) (w : World) (evs : list Event) :
  sampler props = None ->
  calls (run props w evs) = calls w
  /\ pressed (run props w evs) = pressed w.
Proof.
  intros Hs. unfold run. revert w.
  induction evs as [|ev rest IH]; intros w; simpl.
  - split; reflexivity.
  - destruct (IH (step props w ev)) as [Hc Hp].
    destruct (step_without_sampler props w ev Hs) as [Hp1 Hc1].
    rewrite Hc, Hp. split; assumption.
Qed.

Lemma no_sampler_no_effect_witness :
  calls (run (mkProps "C" 4 (Some "q") false None) released
           [OnButton MouseDown;
            OnWindow (KeyDown (mkKeyboardEvent "q" false));
            OnButton TouchStart; OnButton MouseUp;
            OnWindow (KeyUp (mkKeyboardEvent "q" false))]) = []
  /\ pressed (run (mkProps "C" 4 (Some "q") false None) released
                [OnButton MouseDown;
                 OnWindow (KeyDown (mkKeyboardEvent "q" false));
                 OnButton TouchStart; OnButton MouseUp;
                 OnWindow (KeyUp (mkKeyboardEvent "q" false))]) = false.
Proof.
  apply (no_sampler_no_effect (mkProps "C" 4 (Some "q") false None) released).
  reflexivity.
Defined.

(** C8. With a ready sampler, mouse-down followed by mouse-leave sends the
    attack and then exactly one release for the key and leaves it released;
    a mouse-leave on a key that is not pressed sends nothing and leaves it
    not pressed, whatever the sampler. *)
Theorem mouse_leave_releases_only_when_pressed
    (props other : Props) (s : Sampler) (w w0 : World) :
  sampler props = Some s ->
  pressed w0 = false ->
  (calls (run props w [OnButton MouseDown; OnButton MouseLeave])
     = (calls w ++ [triggerAttack (id_of props);
                    triggerRelease (id_of props)])%list
   /\ releases (calls (run props w [OnButton MouseDown; OnButton MouseLeave]))
      = S (releases (calls w))
   /\ pressed (run props w [OnButton MouseDown; OnButton MouseLeave]) = false)
  /\ (calls (step other w0 (OnButton MouseLeave)) = calls w0
      /\ pressed (step other w0 (OnButton MouseLeave)) = false).
Proof.
  intros Hs Hw0. split.
  - unfold run, step. simpl.
    unfold onMouseDown, onMouseLeave, playNote, stopNote, bind.
    rewrite Hs. simpl. rewrite <- app_assoc. simpl.
    repeat split.
    unfold releases. rewrite !filter_app, !length_app. simpl. lia.
  - unfold step. simpl. unfold onMouseLeave. rewrite Hw0. simpl.
    split; reflexivity.
Qed.

Lemma mouse_leave_releases_only_when_pressed_witness :
  (calls (run (mkProps "C" 4 (Some "q") false (Some newSampler)) released
            [OnButton MouseDown; OnButton MouseLeave])
     = [triggerAttack "C4"; triggerRelease "C4"]
   /\ releases
        (calls (run (mkProps "C" 4 (Some "q") false (Some newSampler))
                  released [OnButton MouseDown; OnButton MouseLeave]))
      = 1%nat
   /\ pressed (run (mkProps "C" 4 (Some "q") false (Some newSampler))
                 released [OnButton MouseDown; OnButton MouseLeave]) = false)
  /\ (calls (step (mkProps "D" 3 (Some "x") false (Some newSampler)) released
               (OnButton MouseLeave)) = []
      /\ pressed (step (mkProps "D" 3 (Some "x") false (Some newSampler))
                    released (OnButton MouseLeave)) = false).
Proof.
  apply (mouse_leave_releases_only_when_pressed
           (mkProps "C" 4 (Some "q") false (Some newSampler))
           (mkProps "D" 3 (Some "x") false (Some newSampler))
           newSampler released released); reflexivity.
Defined.

(** C10. With a ready sampler, a mouse-up or a touch-end on a key that is
    not pressed still sends one release for the key's identifier, whereas
    a mouse-leave there sends nothing. *)
Theorem mouse_up_releases_even_when_not_pressed
    (props : Props) (s : Sampler) (w : World) :
  sampler props = Some s ->
  pressed w = false ->
  calls (step props w (OnButton MouseUp))
    = (calls w ++ [triggerRelease (id_of props)])%list
  /\ calls (step props w (OnButton TouchEnd))
     = (calls w ++ [triggerRelease (id_of props)])%list
  /\ calls (step props w (OnButton MouseLeave)) = calls w.
Proof.
  intros Hs Hw. unfold step. simpl.
  unfold onMouseUp, onTouchEnd, onMouseLeave, stopNote, bind.
  rewrite Hs, Hw. simpl. repeat split.
Qed.

Lemma mouse_up_releases_even_when_not_pressed_witness :
  calls (step (mkProps "C" 4 (Some "q") false (Some newSampler)) released
           (OnButton MouseUp)) = [triggerRelease "C4"]
  /\ calls (step (mkProps "C" 4 (Some "q") false (Some newSampler)) released
              (OnButton TouchEnd)) = [triggerRelease "C4"]
  /\ calls (step (mkProps "C" 4 (Some "q") false (Some newSampler)) released
              (OnButton MouseLeave)) = [].
Proof.
  apply (mouse_up_releases_even_when_not_pressed
           (mkProps "C" 4 (Some "q") false (Some newSampler))
           newSampler released); reflexivity.
Defined.

End PianoKeyFacts.

(** ** The whole keyboard *)

Module PianoFacts.
Import Piano.

Lemma length_set_nth {A} (i : nat) (x : A) (l : list A) :
  List.length (set_nth i x l) = List.length l.
Proof.
  revert i. induction l as [|y rest IH]; intros [|j]; simpl; auto.
Qed.

Lemma length_dispatch_window (ps : list PianoKey.Props) (sts : list bool)
    (ev : PianoKey.WindowEvent) (eng : list EngineCall) :
  List.length (fst (dispatch_window ps sts ev eng)) = List.length sts.
Proof.
  revert sts eng. induction ps as [|p rest IH]; intros [|s sts] eng; simpl;
    try reflexivity.
  specialize (IH sts
    (PianoKey.calls
       (PianoKey.step p (PianoKey.mkWorld s eng false) (PianoKey.OnWindow ev)))).
  destruct (dispatch_window rest sts ev _) as [sts' eng']. simpl in *.
  now rewrite IH.
Qed.

Lemma invariant_mount : invariant mount.
Proof. split; simpl; [discriminate|]. intros kb H. discriminate. Qed.

Lemma invariant_commit (st : State) :
  (isLoading st = false -> exists s, samplerRef st = Some s) ->
  (forall kb, keyboard st = Some kb ->
     List.length (pressedKeys kb) = List.length allKeys
     /\ wheelListeners (container kb) = O) ->
  invariant (commit st).
Proof.
  intros Hs Hk. unfold commit.
  destruct (isLoading st) eqn:El.
  - split; simpl; [discriminate|]. intros kb H. discriminate.
  - destruct (keyboard st) as [kb0|] eqn:Ek.
    + split; [intros _; now apply Hs|]. rewrite Ek. intros kb [= <-].
      split; [exact El|]. now apply Hk.
    + split; simpl; [intros _; now apply Hs|]. intros kb [= <-]. simpl.
      split; [reflexivity|]. split; [apply length_map|reflexivity].
Qed.

Lemma invariant_step (st : State) (a : Action) :
  invariant st -> invariant (step st a).
Proof.
  intros [Hs Hk]. destruct a as [|i ev|ev|e]; simpl.
  - apply invariant_commit.
    + unfold loadPiano_resume. destruct (pending st) as [s|]; simpl.
      * intros _. now exists s.
      * exact Hs.
    + unfold loadPiano_resume. destruct (pending st) as [s|]; simpl;
        intros kb Hkb; now apply Hk.
  - destruct (keyboard st) as [kb|] eqn:Ek; [|now split; [|rewrite Ek]].
    destruct (nth_error (rendered_keys st) i) as [p|];
      [|now split; [|rewrite Ek]].
    destruct (nth_error (pressedKeys kb) i) as [s|];
      [|now split; [|rewrite Ek]].
    destruct (Hk kb eq_refl) as (Hl & Hlen & Hw).
    split; simpl; [exact Hs|]. intros kb' [= <-]. simpl.
    now rewrite length_set_nth.
  - destruct (keyboard st) as [kb|] eqn:Ek; [|now split; [|rewrite Ek]].
    destruct (Hk kb eq_refl) as (Hl & Hlen & Hw).
    pose proof (length_dispatch_window (rendered_keys st) (pressedKeys kb) ev
                  (engine st)) as Hd.
    destruct (dispatch_window _ _ _ _) as [sts eng]. simpl in Hd.
    split; simpl; [exact Hs|]. intros kb' [= <-]. simpl.
    now rewrite Hd.
  - destruct (keyboard st) as [kb|] eqn:Ek; [|now split; [|rewrite Ek]].
    destruct (Hk kb eq_refl) as (Hl & Hlen & Hw).
    split; simpl; [exact Hs|]. intros kb' [= <-]. simpl.
    unfold dispatch_wheel. rewrite Hw. simpl. auto.
Qed.

Lemma invariant_run (acts : list Action) : invariant (run acts).
Proof.
  unfold run. generalize invariant_mount. generalize mount.
  induction acts as [|a rest IH]; intros st Hst; simpl; [assumption|].
  apply IH. now apply invariant_step.
Qed.

(** [handleWheel] on its own: a non-zero vertical delta is added to the
    horizontal offset and the default is prevented, whatever the delta mode
    and the horizontal delta; a zero one does nothing. *)
Lemma handleWheel_spec (e : WheelEvent) (c : Container) :
  (deltaY e <> 0 ->
     handleWheel e c
     = (mkContainer (scrollLeft c + deltaY e) (wheelListeners c), true))
  /\ (deltaY e = 0 -> handleWheel e c = (c, false)).
Proof.
  unfold handleWheel. split; intros H.
  - apply Z.eqb_neq in H. now rewrite H.
  - rewrite H. reflexivity.
Qed.

(** C9. On the component as written the wheel listener is never attached:
    the effect that adds it runs once, at mount, when the container is not
    rendered yet. In every reachable state a wheel event, whatever its
    vertical delta, leaves the state (and the horizontal offset) as it is
    and has no default prevented; after loading, a wheel event with deltaY
    = 40 leaves the offset at 0. *)
Theorem wheel_event_never_handled :
  (forall acts e,
     step (run acts) (Wheel e) = run acts
     /\ wheel_prevented (run acts) e = false)
  /\ scroll_offset (run [SamplesLoaded]) = Some 0
  /\ scroll_offset (run [SamplesLoaded; Wheel (mkWheelEvent 0 40 0)]) = Some 0
  /\ wheel_prevented (run [SamplesLoaded]) (mkWheelEvent 0 40 0) = false
  /\ handleWheel (mkWheelEvent 0 40 0) (mkContainer 0 1)
     = (mkContainer 40 1, true).
Proof.
  split; [|repeat split].
  intros acts e. pose proof (invariant_run acts) as [_ Hk].
  unfold wheel_prevented. simpl.
  destruct (run acts) as [l s p [kb|] eng d]; simpl in *; [|split; reflexivity].
  destruct (Hk kb eq_refl) as (_ & _ & Hw).
  destruct kb as [[sl wl] pk]. simpl in *. subst wl.
  split; reflexivity.
Qed.

Lemma step_keydown (smp : Sampler) (k : Key) (s : bool)
    (eng : list EngineCall) (pk : string) :
  PianoKey.step (key_props (Some smp) k) (PianoKey.mkWorld s eng false)
    (PianoKey.OnWindow (PianoKey.KeyDown (PianoKey.mkKeyboardEvent pk false)))
  = if hears pk k
    then PianoKey.mkWorld true (eng ++ [triggerAttack (key_id k)])%list false
    else PianoKey.mkWorld s eng false.
Proof.
  unfold PianoKey.step, hears. simpl.
  unfold PianoKey.window_keydown, PianoKey.handleKeyDown. simpl.
  destruct (JS.truthy (keyBinding k)); simpl; [|reflexivity].
  destruct (PianoKey.key_matches pk (keyBinding k)); reflexivity.
Qed.

Lemma dispatch_keydown (smp : Sampler) (keys : list Key) (sts : list bool)
    (pk : string) (eng : list EngineCall) :
  List.length sts = List.length keys ->
  dispatch_window (map (key_props (Some smp)) keys) sts
    (PianoKey.KeyDown (PianoKey.mkKeyboardEvent pk false)) eng
  = (press_hearing pk keys sts,
     (eng ++ map (fun k => triggerAttack (key_id k))
               (filter (hears pk) keys))%list).
Proof.
  revert sts eng. induction keys as [|k ks IH]; intros [|s ss] eng Hlen;
    try discriminate.
  - simpl. now rewrite app_nil_r.
  - injection Hlen as Hlen.
    cbn [map dispatch_window]. rewrite step_keydown.
    destruct (hears pk k) eqn:Eh; simpl; rewrite (IH ss _ Hlen), ?Eh.
    + simpl. now rewrite <- app_assoc.
    + reflexivity.
Qed.

Lemma dispatch_repeated_keydown (ps : list PianoKey.Props) (sts : list bool)
    (x : string) (eng : list EngineCall) :
  dispatch_window ps sts
    (PianoKey.KeyDown (PianoKey.mkKeyboardEvent x true)) eng = (sts, eng).
Proof.
  revert sts eng. induction ps as [|p rest IH]; intros [|s ss] eng;
    try reflexivity.
  cbn [dispatch_window].
  assert (PianoKey.step p (PianoKey.mkWorld s eng false)
            (PianoKey.OnWindow
               (PianoKey.KeyDown (PianoKey.mkKeyboardEvent x true)))
          = PianoKey.mkWorld s eng false) as ->.
  { unfold PianoKey.step. simpl.
    unfold PianoKey.window_keydown, PianoKey.handleKeyDown. simpl.
    rewrite andb_false_r. now destruct (JS.truthy _). }
  simpl. now rewrite IH.
Qed.

Lemma press_hearing_nth (pk : string) (keys : list Key) (sts : list bool)
    (i : nat) (k : Key) (s : bool) :
  nth_error keys i = Some k -> nth_error sts i = Some s ->
  hears pk k = true ->
  nth_error (press_hearing pk keys sts) i = Some true.
Proof.
  revert keys sts. induction i as [|j IH]; intros [|k0 ks] [|s0 ss];
    simpl; try discriminate.
  - intros [= ->] _ ->. reflexivity.
  - intros Hk Hs Hh. now apply IH.
Qed.

(** An auto-repeated key-down changes nothing, in any state. *)
Lemma keydown_repeated_noop (st : State) (x : string) :
  keydown_repeated st x = st.
Proof.
  unfold keydown_repeated. simpl.
  destruct st as [l s p [[c sts]|] eng d]; simpl; [|reflexivity].
  now rewrite dispatch_repeated_keydown.
Qed.

(** C7. In a state the component can reach with the keyboard rendered
    (hence with the engine ready), a first key-down of the physical key
    bound to a key that is not pressed appends exactly one attack, for this
    key's identifier, to the engine's calls and leaves the key pressed; an
    auto-repeated key-down, of any key, then changes nothing. *)
Theorem keydown_attacks_bound_key_once
    (acts : list Action) (i : nat) (k : Key) (pk : string) :
  nth_error allKeys i = Some k ->
  keyBinding k = Some pk ->
  pressed_at (run acts) i = Some false ->
  engine (keydown (run acts) pk)
    = (engine (run acts) ++ [triggerAttack (key_id k)])%list
  /\ pressed_at (keydown (run acts) pk) i = Some true
  /\ (forall x,
        keydown_repeated (keydown (run acts) pk) x = keydown (run acts) pk).
Proof.
  intros Hi Hb Hp.
  assert (hears pk k = true
          /\ map (fun k' => triggerAttack (key_id k'))
               (filter (hears pk) allKeys) = [triggerAttack (key_id k)])
    as [Hh Hf].
  { assert (forallb binding_heard_once allKeys = true) as Hall
      by (vm_compute; reflexivity).
    rewrite forallb_forall in Hall.
    specialize (Hall k (nth_error_In _ _ Hi)).
    unfold binding_heard_once in Hall. rewrite Hb in Hall.
    apply andb_prop in Hall as [Hh Hone]. split; [assumption|].
    destruct (filter (hears pk) allKeys) as [|k' [|k'' rest]];
      try discriminate.
    apply String.eqb_eq in Hone. simpl. now rewrite Hone. }
  pose proof (invariant_run acts) as [Hs Hk].
  unfold pressed_at, keydown in *. simpl.
  destruct (run acts) as [l s p [kb|] eng d]; simpl in *; [|discriminate].
  destruct (Hk kb eq_refl) as (Hl & Hlen & _). subst l.
  destruct (Hs eq_refl) as [smp ->].
  unfold rendered_keys. simpl.
  rewrite (dispatch_keydown smp allKeys (pressedKeys kb) pk eng Hlen).
  simpl. rewrite Hf. split; [reflexivity|]. split.
  - exact (press_hearing_nth pk allKeys (pressedKeys kb) i k false Hi Hp Hh).
  - intros x. apply keydown_repeated_noop.
Qed.

Lemma keydown_attacks_bound_key_once_witness :
  engine (keydown (run [SamplesLoaded]) "q") = [triggerAttack "C4"]
  /\ pressed_at (keydown (run [SamplesLoaded]) "q") 12 = Some true
  /\ (forall x,
        keydown_repeated (keydown (run [SamplesLoaded]) "q") x
        = keydown (run [SamplesLoaded]) "q").
Proof.
  apply (keydown_attacks_bound_key_once [SamplesLoaded] 12
           (mkKey "C" 4 (Some "q") false) "q"); reflexivity.
Defined.

End PianoFacts.

(** ** More on a single key *)

Module PianoKeyMore.
Import PianoKey.

Ltac unfold_handlers :=
  unfold step; simpl;
  unfold onTouchStart, onTouchEnd, onMouseDown, onMouseUp, onMouseLeave,
    window_keydown, window_keyup, handleKeyDown, handleKeyUp,
    playNote, stopNote, bind, preventDefault, engine_call, setIsPressed, ret.

(** What one event can do to a key: nothing, one attack (key pressed), or
    one release (key released), always for the key's own identifier. *)
Lemma step_effect (props : Props) (w : World) (ev : Event) :
  (calls (step props w ev) = calls w
   /\ pressed (step props w ev) = pressed w)
  \/ (calls (step props w ev) = (calls w ++ [triggerAttack (id_of props)])%list
      /\ pressed (step props w ev) = true)
  \/ (calls (step props w ev) = (calls w ++ [triggerRelease (id_of props)])%list
      /\ pressed (step props w ev) = false).
Proof.
  unfold id_of.
  destruct ev as [[| | | |]|[e|e]]; unfold_handlers;
    destruct (sampler props); simpl;
    repeat match goal with
           | |- context [if ?b then _ else _] => destruct b; simpl
           end; auto.
Qed.

Lemma press_step (props : Props) (s : Sampler) (w : World) (p : Event) :
  sampler props = Some s -> is_press_for props p = true ->
  calls (step props w p) = (calls w ++ [triggerAttack (id_of props)])%list
  /\ pressed (step props w p) = true.
Proof.
  intros Hs Hp. unfold id_of.
  destruct p as [[| | | |]|[e|e]]; try discriminate; unfold_handlers;
    rewrite Hs; simpl; auto.
  simpl in Hp. apply andb_prop in Hp as [Hp Hr].
  apply andb_prop in Hp as [Ht Hm]. rewrite Ht, Hm, Hr. simpl. auto.
Qed.

Lemma release_step (props : Props) (s : Sampler) (w : World) (r : Event) :
  sampler props = Some s -> is_release_for props r = true ->
  calls (step props w r) = (calls w ++ [triggerRelease (id_of props)])%list
  /\ pressed (step props w r) = false.
Proof.
  intros Hs Hr. unfold id_of.
  destruct r as [[| | | |]|[e|e]]; try discriminate; unfold_handlers;
    rewrite Hs; simpl; auto.
  simpl in Hr. apply andb_prop in Hr as [Ht Hm]. rewrite Ht, Hm. simpl. auto.
Qed.

(** X1. Whatever the props and the events, a key sends at most one call per
    event, every call names the key's own identifier, and its pressed state
    is the one of the last call sent (attack: pressed, release: released),
    or the initial one when none was sent. *)
Theorem calls_follow_events (props : Props) (w : World) (evs : list Event) :
  exists extra,
    calls (run props w evs) = (calls w ++ extra)%list
    /\ Forall (fun c => c = triggerAttack (id_of props)
                        \/ c = triggerRelease (id_of props)) extra
    /\ (List.length extra <= List.length evs)%nat
    /\ pressed (run props w evs) = pressed_after (pressed w) extra.
Proof.
  unfold run. revert w. induction evs as [|ev rest IH]; intros w; simpl.
  - exists []. rewrite app_nil_r. repeat split; auto.
  - destruct (IH (step props w ev)) as (extra & Hc & Hall & Hlen & Hp).
    destruct (step_effect props w ev) as [[Hc1 Hp1]|[[Hc1 Hp1]|[Hc1 Hp1]]].
    + exists extra. rewrite Hc, Hp, Hc1, Hp1. repeat split; auto.
    + exists (triggerAttack (id_of props) :: extra).
      rewrite Hc, Hp, Hc1, Hp1, <- app_assoc. simpl.
      repeat split; auto. lia.
    + exists (triggerRelease (id_of props) :: extra).
      rewrite Hc, Hp, Hc1, Hp1, <- app_assoc. simpl.
      repeat split; auto. lia.
Qed.

(** X2. Touch-start is the only event whose default is prevented, and it is
    prevented whether or not a sampler is there. *)
Theorem only_touch_start_prevents_default
    (props : Props) (w : World) (ev : Event) :
  defaultPrevented (step props w ev) = true <-> ev = OnButton TouchStart.
Proof.
  split.
  - destruct ev as [[| | | |]|[e|e]]; auto; unfold_handlers;
      destruct (sampler props); simpl;
      repeat match goal with
             | |- context [if ?b then _ else _] => destruct b; simpl
             end; discriminate.
  - intros ->. unfold_handlers. now destruct (sampler props).
Qed.

Lemma window_step_ignored (props : Props) (w : World) (k : WindowEvent) :
  JS.truthy (keyBinding props) = false
  \/ keyBinding props
     <> Some (key (match k with KeyDown e => e | KeyUp e => e end)) ->
  step props w (OnWindow k) = mkWorld (pressed w) (calls w) false.
Proof.
  intros H. destruct k as [[ke re]|[ke re]]; simpl in H; unfold_handlers;
    (destruct H as [-> | H]; [reflexivity|]);
    (destruct (JS.truthy (keyBinding props)); [|reflexivity]);
    (destruct (keyBinding props) as [b|]; simpl; [|reflexivity]);
    (destruct (String.eqb_spec ke b) as [->|Hne]; [now elim H|]);
    reflexivity.
Qed.

(** X3. A key with no binding, or with the empty string as binding, ignores
    every window key event; a bound key ignores the events of any other
    physical key (the comparison is exact, so "Q" is not "q"). *)
Theorem other_keys_are_ignored
    (props : Props) (w : World) (k : WindowEvent) :
  JS.truthy (keyBinding props) = false
  \/ keyBinding props
     <> Some (key (match k with KeyDown e => e | KeyUp e => e end)) ->
  step props w (OnWindow k) = mkWorld (pressed w) (calls w) false.
Proof. exact (window_step_ignored props w k). Qed.

Lemma other_keys_are_ignored_witness :
  step (mkProps "C" 4 (Some "q") false (Some newSampler)) released
    (OnWindow (KeyDown (mkKeyboardEvent "Q" false)))
  = mkWorld false [] false.
Proof.
  apply (other_keys_are_ignored
           (mkProps "C" 4 (Some "q") false (Some newSampler)) released
           (KeyDown (mkKeyboardEvent "Q" false))).
  right. simpl. discriminate.
Defined.

(** X4. With a sampler, any event that starts the note followed by any
    event that stops it (also across input kinds, such as key-down then
    mouse-up) sends the attack and then the release of the key, and leaves
    the key released, whatever its state before. *)
Theorem press_then_release
    (props : Props) (s : Sampler) (w : World) (p r : Event) :
  sampler props = Some s ->
  is_press_for props p = true ->
  is_release_for props r = true ->
  calls (run props w [p; r])
    = (calls w ++ [triggerAttack (id_of props);
                   triggerRelease (id_of props)])%list
  /\ pressed (run props w [p; r]) = false.
Proof.
  intros Hs Hp Hr. unfold run. simpl.
  destruct (press_step props s w p Hs Hp) as [Hc1 _].
  destruct (release_step props s (step props w p) r Hs Hr) as [Hc2 Hp2].
  rewrite Hc2, Hc1, <- app_assoc. split; [reflexivity|assumption].
Qed.

Lemma press_then_release_witness :
  calls (run (mkProps "C" 4 (Some "q") false (Some newSampler)) released
           [OnWindow (KeyDown (mkKeyboardEvent "q" false));
            OnButton MouseUp])
    = [triggerAttack "C4"; triggerRelease "C4"]
  /\ pressed (run (mkProps "C" 4 (Some "q") false (Some newSampler)) released
                [OnWindow (KeyDown (mkKeyboardEvent "q" false));
                 OnButton MouseUp]) = false.
Proof.
  apply (press_then_release
           (mkProps "C" 4 (Some "q") false (Some newSampler)) newSampler
           released (OnWindow (KeyDown (mkKeyboardEvent "q" false)))
           (OnButton MouseUp)); reflexivity.
Defined.



End PianoKeyMore.

(** ** More on the whole keyboard *)

Module PianoMore.
Import Piano.

(** *** The two phases of the component *)

Lemma mount_ignores (a : Action) : is_loaded a = false -> step mount a = mount.
Proof. destruct a; [discriminate| | |]; reflexivity. Qed.

Lemma mount_loaded : ready_state (step mount SamplesLoaded).
Proof.
  repeat split. exists (map (fun _ => false) allKeys).
  split; [apply length_map|reflexivity].
Qed.

Lemma ready_step (st : State) (a : Action) :
  ready_state st -> ready_state (step st a).
Proof.
  destruct st as [l s p k eng d].
  intros (Hl & Hs & Hp & Hd & sts & Hlen & Hk). simpl in *. subst.
  destruct a as [|i ev|ev|e]; simpl.
  - repeat split. now exists sts.
  - destruct (nth_error (rendered_keys _) i) as [pr|];
      [|repeat split; now exists sts].
    destruct (nth_error sts i) as [s0|]; [|repeat split; now exists sts].
    repeat split. eexists. split; [|reflexivity].
    now rewrite PianoFacts.length_set_nth.
  - pose proof (PianoFacts.length_dispatch_window
                  (rendered_keys
                     (mkState false (Some newSampler) None
                        (Some (mkKeyboard (mkContainer 0 0) sts)) eng []))
                  sts ev eng) as Hd.
    destruct (dispatch_window _ sts ev eng) as [sts' eng']. simpl in Hd.
    repeat split. exists sts'. split; [congruence|reflexivity].
  - repeat split. now exists sts.
Qed.

Lemma ready_fold (acts : list Action) (st : State) :
  ready_state st -> ready_state (fold_left step acts st).
Proof.
  revert st. induction acts as [|a rest IH]; intros st H; simpl; auto.
  apply IH. now apply ready_step.
Qed.

(** X6. Until the samples are loaded nothing a user does has any effect:
    a run of button, key and wheel events without the loading step leaves
    the component in its mount state (no key rendered, no engine call). *)
Theorem nothing_happens_while_loading (acts : list Action) :
  forallb (fun a => negb (is_loaded a)) acts = true ->
  run acts = mount.
Proof.
  unfold run. induction acts as [|a rest IH]; simpl; intros H; auto.
  apply andb_prop in H as [Ha Hrest].
  rewrite mount_ignores; [now apply IH|].
  now destruct (is_loaded a).
Qed.

Lemma nothing_happens_while_loading_witness :
  run [Button 12 PianoKey.MouseDown;
       Window (PianoKey.KeyDown (PianoKey.mkKeyboardEvent "q" false));
       Wheel (mkWheelEvent 0 40 0)] = mount.
Proof.
  apply (nothing_happens_while_loading
           [Button 12 PianoKey.MouseDown;
            Window (PianoKey.KeyDown (PianoKey.mkKeyboardEvent "q" false));
            Wheel (mkWheelEvent 0 40 0)]).
  reflexivity.
Defined.

(** X7. Once the samples are loaded the component stays ready whatever
    follows: loading is over, the sampler is the one created at mount, no
    sampler was disposed, and all 36 keys are rendered, each with that
    sampler (so the null guard of [playNote] and [stopNote] never fires on
    a rendered key). *)
Theorem ready_after_loading (acts : list Action) :
  existsb is_loaded acts = true ->
  ready_state (run acts)
  /\ List.length (rendered_keys (run acts)) = 36%nat
  /\ (forall p, In p (rendered_keys (run acts)) ->
        PianoKey.sampler p = Some newSampler).
Proof.
  intros H.
  assert (ready_state (run acts)) as Hr.
  { unfold run. induction acts as [|a rest IH]; simpl in *; [discriminate|].
    destruct (is_loaded a) eqn:Ea.
    - destruct a; try discriminate. apply ready_fold. exact mount_loaded.
    - rewrite mount_ignores by assumption. now apply IH. }
  split; [assumption|].
  destruct Hr as (Hl & Hs & _). unfold rendered_keys. rewrite Hl, Hs.
  split; [reflexivity|].
  intros p Hp. apply in_map_iff in Hp as (k & <- & _). reflexivity.
Qed.

Lemma ready_after_loading_witness :
  ready_state (run [SamplesLoaded; Button 0 PianoKey.MouseDown])
  /\ List.length
       (rendered_keys (run [SamplesLoaded; Button 0 PianoKey.MouseDown]))
     = 36%nat
  /\ (forall p,
        In p (rendered_keys (run [SamplesLoaded; Button 0 PianoKey.MouseDown]))
        -> PianoKey.sampler p = Some newSampler).
Proof.
  apply (ready_after_loading [SamplesLoaded; Button 0 PianoKey.MouseDown]).
  reflexivity.
Defined.

(** *** The calls the engine receives *)

Lemma dispatch_window_calls (ps : list PianoKey.Props) (sts : list bool)
    (ev : PianoKey.WindowEvent) (eng : list EngineCall) :
  exists extra,
    snd (dispatch_window ps sts ev eng) = (eng ++ extra)%list
    /\ Forall (fun c => In (call_id c) (map PianoKey.id_of ps)) extra.
Proof.
  revert sts eng. induction ps as [|p rest IH]; intros sts eng.
  - exists []. simpl. now rewrite app_nil_r.
  - destruct sts as [|s ss].
    + exists []. simpl. now rewrite app_nil_r.
    + cbn [dispatch_window].
      pose proof (PianoKeyMore.step_effect p (PianoKey.mkWorld s eng false)
                    (PianoKey.OnWindow ev)) as Hstep.
      destruct (IH ss (PianoKey.calls
                         (PianoKey.step p (PianoKey.mkWorld s eng false)
                            (PianoKey.OnWindow ev)))) as (extra & He & Hall).
      destruct (dispatch_window rest ss ev _) as [sts' eng']. simpl in *.
      assert (Forall (fun c => In (call_id c)
                                 (PianoKey.id_of p :: map PianoKey.id_of rest))
                extra) as Hall'.
      { eapply Forall_impl; [|exact Hall]. simpl. auto. }
      destruct Hstep as [[Hc _]|[[Hc _]|[Hc _]]]; rewrite Hc in He.
      * exists extra. now split.
      * exists (triggerAttack (PianoKey.id_of p) :: extra).
        rewrite He, <- app_assoc. split; [reflexivity|].
        constructor; [now left|assumption].
      * exists (triggerRelease (PianoKey.id_of p) :: extra).
        rewrite He, <- app_assoc. split; [reflexivity|].
        constructor; [now left|assumption].
Qed.

Lemma rendered_ids (st : State) (id : string) :
  In id (map PianoKey.id_of (rendered_keys st)) -> In id (map key_id allKeys).
Proof.
  unfold rendered_keys. destruct (isLoading st); [contradiction|].
  now rewrite map_map.
Qed.

Lemma step_keeps_table_calls (st : State) (a : Action) :
  Forall (fun c => In (call_id c) (map key_id allKeys)) (engine st) ->
  Forall (fun c => In (call_id c) (map key_id allKeys)) (engine (step st a)).
Proof.
  intros H. destruct a as [|i ev|ev|e]; simpl.
  - unfold loadPiano_resume, commit.
    destruct (pending st); simpl; [destruct (keyboard st); assumption|].
    destruct (isLoading st); simpl; [assumption|].
    destruct (keyboard st); assumption.
  - destruct (keyboard st) as [kb|]; [|assumption].
    destruct (nth_error (rendered_keys st) i) as [p|] eqn:Ep; [|assumption].
    destruct (nth_error (pressedKeys kb) i) as [s|]; [|assumption].
    simpl.
    assert (In (PianoKey.id_of p) (map key_id allKeys)) as Hid.
    { apply (rendered_ids st). apply in_map. now apply nth_error_In in Ep. }
    destruct (PianoKeyMore.step_effect p (PianoKey.mkWorld s (engine st) false)
                (PianoKey.OnButton ev)) as [[Hc _]|[[Hc _]|[Hc _]]];
      rewrite Hc; simpl; [assumption| |];
      apply Forall_app; split; auto.
  - destruct (keyboard st) as [kb|]; [|assumption].
    destruct (dispatch_window_calls (rendered_keys st) (pressedKeys kb) ev
                (engine st)) as (extra & He & Hall).
    destruct (dispatch_window _ _ ev _) as [sts eng]. simpl in *. subst eng.
    apply Forall_app. split; [assumption|].
    eapply Forall_impl; [|exact Hall]. intros c. apply rendered_ids.
  - destruct (keyboard st); assumption.
Qed.

(** X8. Every call the engine ever receives, after any sequence of
    actions, names one of the 36 identifiers of the key table. *)
Theorem engine_calls_name_table_keys (acts : list Action) :
  Forall (fun c => exists k, In k allKeys /\ call_id c = key_id k)
    (engine (run acts)).
Proof.
  assert (Forall (fun c => In (call_id c) (map key_id allKeys))
            (engine (run acts))) as H.
  { unfold run.
    assert (Forall (fun c => In (call_id c) (map key_id allKeys))
              (engine mount)) as H0 by constructor.
    revert H0. generalize mount.
    induction acts as [|a rest IH]; intros st H0; simpl; [assumption|].
    apply IH. now apply step_keeps_table_calls. }
  eapply Forall_impl; [|exact H]. intros c Hc.
  apply in_map_iff in Hc as (k & Hk & Hin). now exists k.
Qed.

(** *** Locality of button events *)




(** *** Physical keys *)

Lemma NoDup_keys_functional {A B} (l : list (A * B)) :
  NoDup (map fst l) ->
  forall k v1 v2, In (k, v1) l -> In (k, v2) l -> v1 = v2.
Proof.
  induction l as [|[k0 v0] rest IH]; simpl; intros Hnd k v1 v2 H1 H2.
  - contradiction.
  - inversion Hnd as [|? ? Hnotin Hrest]; subst.
    destruct H1 as [H1|H1], H2 as [H2|H2].
    + congruence.
    + injection H1 as -> ->. exfalso. apply Hnotin.
      change k with (fst (k, v2)). now apply in_map.
    + injection H2 as -> ->. exfalso. apply Hnotin.
      change k with (fst (k, v1)). now apply in_map.
    + now apply (IH Hrest k v1 v2).
Qed.

Lemma KEYBOARD_MAP_keys_distinct : NoDup (map fst (JS.entries KEYBOARD_MAP)).
Proof. apply distinct_NoDup. vm_compute. reflexivity. Qed.

Lemma allKeys_ids_distinct : NoDup (map key_id allKeys).
Proof. apply distinct_NoDup. vm_compute. reflexivity. Qed.

Lemma binding_in_map (k : Key) (pk : string) :
  In k allKeys -> keyBinding k = Some pk ->
  In (pk, key_id k) (JS.entries KEYBOARD_MAP).
Proof.
  intros Hk Hb. apply in_allKeys in Hk as (n & o & _ & _ & ->).
  unfold make_key, key_id in *. simpl in *.
  apply find_key_of_value_Some in Hb; [assumption|].
  exact KEYBOARD_MAP_values_distinct.
Qed.

Lemma hears_binding (pk : string) (k : Key) :
  hears pk k = true -> keyBinding k = Some pk.
Proof.
  unfold hears. intros H. apply andb_prop in H as [_ H].
  destruct (keyBinding k) as [b|]; simpl in H; [|discriminate].
  apply String.eqb_eq in H. now subst.
Qed.

(** The key bound to a physical key is the only one that hears it. *)
Lemma heard_only_at (i j : nat) (k k' : Key) (pk : string) :
  nth_error allKeys i = Some k -> keyBinding k = Some pk ->
  nth_error allKeys j = Some k' -> hears pk k' = true ->
  j = i.
Proof.
  intros Hi Hb Hj Hh. apply hears_binding in Hh.
  pose proof (binding_in_map k pk (nth_error_In _ _ Hi) Hb) as H1.
  pose proof (binding_in_map k' pk (nth_error_In _ _ Hj) Hh) as H2.
  pose proof (NoDup_keys_functional _ KEYBOARD_MAP_keys_distinct
                pk _ _ H1 H2) as Hid.
  pose proof allKeys_ids_distinct as Hnd.
  rewrite NoDup_nth_error in Hnd. apply Hnd.
  - rewrite length_map. apply nth_error_Some. congruence.
  - rewrite !nth_error_map, Hi, Hj. simpl. now rewrite Hid.
Qed.

Lemma hearing_keys (i : nat) (k : Key) (pk : string) :
  nth_error allKeys i = Some k -> keyBinding k = Some pk ->
  hears pk k = true
  /\ map key_id (filter (hears pk) allKeys) = [key_id k].
Proof.
  intros Hi Hb.
  assert (forallb binding_heard_once allKeys = true) as Hall
    by (vm_compute; reflexivity).
  rewrite forallb_forall in Hall.
  specialize (Hall k (nth_error_In _ _ Hi)).
  unfold binding_heard_once in Hall. rewrite Hb in Hall.
  apply andb_prop in Hall as [Hh Hone]. split; [assumption|].
  destruct (filter (hears pk) allKeys) as [|k' [|k'' rest]]; try discriminate.
  apply String.eqb_eq in Hone. simpl. now rewrite Hone.
Qed.

Lemma step_keyup (smp : Sampler) (k : Key) (s : bool)
    (eng : list EngineCall) (pk : string) :
  PianoKey.step (key_props (Some smp) k) (PianoKey.mkWorld s eng false)
    (PianoKey.OnWindow (PianoKey.KeyUp (PianoKey.mkKeyboardEvent pk false)))
  = if hears pk k
    then PianoKey.mkWorld false (eng ++ [triggerRelease (key_id k)])%list false
    else PianoKey.mkWorld s eng false.
Proof.
  unfold PianoKey.step, hears. simpl.
  unfold PianoKey.window_keyup, PianoKey.handleKeyUp. simpl.
  destruct (JS.truthy (keyBinding k)); simpl; [|reflexivity].
  destruct (PianoKey.key_matches pk (keyBinding k)); reflexivity.
Qed.

Lemma dispatch_keyup (smp : Sampler) (keys : list Key) (sts : list bool)
    (pk : string) (eng : list EngineCall) :
  List.length sts = List.length keys ->
  dispatch_window (map (key_props (Some smp)) keys) sts
    (PianoKey.KeyUp (PianoKey.mkKeyboardEvent pk false)) eng
  = (release_hearing pk keys sts,
     (eng ++ map (fun k => triggerRelease (key_id k))
               (filter (hears pk) keys))%list).
Proof.
  revert sts eng. induction keys as [|k ks IH]; intros [|s ss] eng Hlen;
    try discriminate.
  - simpl. now rewrite app_nil_r.
  - injection Hlen as Hlen.
    cbn [map dispatch_window]. rewrite step_keyup.
    destruct (hears pk k) eqn:Eh; simpl; rewrite (IH ss _ Hlen), ?Eh.
    + simpl. now rewrite <- app_assoc.
    + reflexivity.
Qed.

Lemma length_press_hearing (pk : string) (keys : list Key) (sts : list bool) :
  List.length (press_hearing pk keys sts) = List.length sts.
Proof.
  revert sts. induction keys as [|k ks IH]; intros [|s ss]; simpl; auto.
Qed.

Lemma release_press_nth (pk : string) (keys : list Key) (sts : list bool)
    (j : nat) :
  nth_error (release_hearing pk keys (press_hearing pk keys sts)) j
  = match nth_error keys j with
    | Some k =>
        option_map (fun s => if hears pk k then false else s)
          (nth_error sts j)
    | None => nth_error sts j
    end.
Proof.
  revert keys sts. induction j as [|j IH]; intros [|k ks] [|s ss]; simpl;
    try reflexivity.
  - now destruct (hears pk k).
  - now destruct (nth_error ks j).
  - apply IH.
Qed.

(** X10. In any reachable state with the keyboard rendered, pressing and
    then releasing the physical key bound to a key that is not pressed
    sends exactly the attack and then the release of that key's identifier,
    and gives every key of the keyboard back its pressed state. *)
Theorem keydown_keyup_round_trip
    (acts : list Action) (i : nat) (k : Key) (pk : string) :
  nth_error allKeys i = Some k ->
  keyBinding k = Some pk ->
  pressed_at (run acts) i = Some false ->
  engine (keyup (keydown (run acts) pk) pk)
    = (engine (run acts)
       ++ [triggerAttack (key_id k); triggerRelease (key_id k)])%list
  /\ (forall j, pressed_at (keyup (keydown (run acts) pk) pk) j
                = pressed_at (run acts) j).
Proof.
  intros Hi Hb Hp.
  destruct (hearing_keys i k pk Hi Hb) as [Hh Hf].
  pose proof (heard_only_at i) as Honly.
  pose proof (PianoFacts.invariant_run acts) as [Hs Hk].
  unfold pressed_at, keyup, keydown in *. simpl.
  destruct (run acts) as [l s p [kb|] eng d]; simpl in *; [|discriminate].
  destruct (Hk kb eq_refl) as (Hl & Hlen & _). subst l.
  destruct (Hs eq_refl) as [smp ->].
  unfold rendered_keys. simpl.
  rewrite (PianoFacts.dispatch_keydown smp allKeys (pressedKeys kb) pk eng Hlen).
  simpl. unfold rendered_keys. simpl.
  rewrite dispatch_keyup by (now rewrite length_press_hearing).
  simpl. split.
  - rewrite <- app_assoc. f_equal.
    rewrite <- (map_map key_id triggerAttack),
            <- (map_map key_id triggerRelease), Hf.
    reflexivity.
  - intros j. rewrite release_press_nth.
    destruct (nth_error allKeys j) as [k'|] eqn:Ej; [|reflexivity].
    destruct (hears pk k') eqn:Eh.
    + rewrite (Honly j k k' pk Hi Hb Ej Eh), Hp. reflexivity.
    + now destruct (nth_error (pressedKeys kb) j).
Qed.

Lemma keydown_keyup_round_trip_witness :
  engine (keyup (keydown (run [SamplesLoaded]) "q") "q")
    = [triggerAttack "C4"; triggerRelease "C4"]
  /\ (forall j, pressed_at (keyup (keydown (run [SamplesLoaded]) "q") "q") j
                = pressed_at (run [SamplesLoaded]) j).
Proof.
  apply (keydown_keyup_round_trip [SamplesLoaded] 12
           (mkKey "C" 4 (Some "q") false) "q"); reflexivity.
Defined.

Lemma dispatch_ignored (ps : list PianoKey.Props) (sts : list bool)
    (ev : PianoKey.WindowEvent) (eng : list EngineCall) :
  Forall (fun p =>
            PianoKey.keyBinding p
            <> Some (PianoKey.key
                       (match ev with
                        | PianoKey.KeyDown e => e
                        | PianoKey.KeyUp e => e
                        end))) ps ->
  dispatch_window ps sts ev eng = (sts, eng).
Proof.
  intros H. revert sts eng. induction H as [|p rest Hp Hrest IH];
    intros [|s ss] eng; try reflexivity.
  cbn [dispatch_window].
  rewrite (PianoKeyMore.window_step_ignored p _ ev (or_intror Hp)).
  simpl. now rewrite IH.
Qed.

(** X11. A physical key that is no key of the key-binding map (a letter
    outside it, or a bound letter typed in upper case) changes nothing, in
    any state: neither its key-down nor its key-up reaches the engine or a
    pressed state. *)
Theorem unmapped_physical_key_is_ignored (st : State) (pk : string) :
  ~ In pk (map fst (JS.entries KEYBOARD_MAP)) ->
  keydown st pk = st /\ keyup st pk = st.
Proof.
  intros Hpk.
  assert (forall ev,
            PianoKey.key (match ev with
                          | PianoKey.KeyDown e => e
                          | PianoKey.KeyUp e => e
                          end) = pk ->
            forall sts eng,
              dispatch_window (rendered_keys st) sts ev eng = (sts, eng))
    as Hd.
  { intros ev Hev sts eng. apply dispatch_ignored. rewrite Hev.
    unfold rendered_keys. destruct (isLoading st); [constructor|].
    apply Forall_forall. intros p Hp.
    apply in_map_iff in Hp as (k & <- & Hk). simpl. intros Hb.
    apply Hpk. change pk with (fst (pk, key_id k)). apply in_map.
    now apply binding_in_map. }
  unfold keydown, keyup. simpl.
  destruct (keyboard st) as [[c sts]|] eqn:Ek; [|split; reflexivity].
  simpl. rewrite !Hd by reflexivity.
  destruct st as [l s p kbd eng d]. simpl in *. subst kbd.
  split; reflexivity.
Qed.

Lemma unmapped_physical_key_is_ignored_witness :
  keydown (run [SamplesLoaded]) "Q" = run [SamplesLoaded]
  /\ keyup (run [SamplesLoaded]) "Q" = run [SamplesLoaded].
Proof.
  apply (unmapped_physical_key_is_ignored (run [SamplesLoaded]) "Q").
  vm_compute. intros H.
  repeat (destruct H as [H|H]; [discriminate|]). exact H.
Defined.

(** *** Pressed states and the engine's log *)

Lemma sounding_app (id : string) (log extra : list EngineCall) :
  sounding id (log ++ extra)
  = fold_left
      (fun b c => if String.eqb (call_id c) id then is_attack c else b)
      extra (sounding id log).
Proof. unfold sounding. apply fold_left_app. Qed.

Lemma sounding_other (id : string) (log extra : list EngineCall) :
  Forall (fun c => call_id c <> id) extra ->
  sounding id (log ++ extra) = sounding id log.
Proof.
  rewrite sounding_app. generalize (sounding id log).
  induction extra as [|c rest IH]; intros b H; simpl; [reflexivity|].
  inversion H as [|? ? Hc Hrest]; subst.
  apply String.eqb_neq in Hc. rewrite Hc. now apply IH.
Qed.

Lemma sounding_own (id : string) (log : list EngineCall) (c : EngineCall) :
  call_id c = id -> sounding id (log ++ [c]) = is_attack c.
Proof.
  intros <-. rewrite sounding_app. simpl. now rewrite String.eqb_refl.
Qed.

Lemma mirrors_fresh (keys : list Key) :
  mirrors keys (map (fun _ => false) keys) [].
Proof. induction keys; constructor; auto. Qed.

Lemma mirrors_other_calls (keys : list Key) (sts : list bool)
    (log extra : list EngineCall) :
  mirrors keys sts log ->
  Forall (fun c => ~ In (call_id c) (map key_id keys)) extra ->
  mirrors keys sts (log ++ extra).
Proof.
  intros H Hex. induction H as [|k s ks ss Hks Hrest IH]; constructor.
  - rewrite sounding_other; [assumption|].
    eapply Forall_impl; [|exact Hex]. simpl. intros c Hc E. apply Hc. now left.
  - apply IH. eapply Forall_impl; [|exact Hex]. simpl. intros c Hc E.
    apply Hc. now right.
Qed.

Lemma mirrors_nth (keys : list Key) (sts : list bool)
    (log : list EngineCall) (i : nat) (k : Key) (s : bool) :
  mirrors keys sts log ->
  nth_error keys i = Some k -> nth_error sts i = Some s ->
  s = sounding (key_id k) log.
Proof.
  intros Hm. revert i.
  induction Hm as [|k0 b ks ss Hb Hrest IH]; intros [|i] Ek Es;
    simpl in *; try discriminate.
  - congruence.
  - now apply (IH i).
Qed.

(** The calls of one key, sent after a log the pressed cells agree with. *)
Lemma mirrors_update (keys : list Key) (sts : list bool)
    (log extra : list EngineCall) (i : nat) (k : Key) (s' : bool) :
  NoDup (map key_id keys) ->
  mirrors keys sts log ->
  nth_error keys i = Some k ->
  Forall (fun c => call_id c = key_id k) extra ->
  s' = sounding (key_id k) (log ++ extra) ->
  mirrors keys (set_nth i s' sts) (log ++ extra).
Proof.
  intros Hnd H. revert i.
  induction H as [|k0 s0 ks ss Hk0 Hrest IH]; intros i Hi Hex Hs'.
  - destruct i; discriminate.
  - simpl in Hnd. inversion Hnd as [|? ? Hnotin Hnd']; subst.
    destruct i as [|i]; simpl in *.
    + injection Hi as ->. constructor; [reflexivity|].
      apply mirrors_other_calls; [assumption|].
      eapply Forall_impl; [|exact Hex]. simpl. intros c Hc. now rewrite Hc.
    + constructor; [|now apply IH].
      rewrite sounding_other; [reflexivity|].
      eapply Forall_impl; [|exact Hex]. simpl. intros c Hc E.
      apply Hnotin. rewrite <- E, Hc. apply in_map.
      now apply nth_error_In in Hi.
Qed.

Lemma step_mirrors (smp : option Sampler) (k : Key) (s : bool)
    (eng : list EngineCall) (ev : PianoKey.Event) :
  s = sounding (key_id k) eng ->
  exists extra,
    PianoKey.calls (PianoKey.step (key_props smp k)
                      (PianoKey.mkWorld s eng false) ev)
    = (eng ++ extra)%list
    /\ Forall (fun c => call_id c = key_id k) extra
    /\ PianoKey.pressed (PianoKey.step (key_props smp k)
                           (PianoKey.mkWorld s eng false) ev)
       = sounding (key_id k) (eng ++ extra).
Proof.
  intros Hs.
  destruct (PianoKeyMore.step_effect (key_props smp k)
              (PianoKey.mkWorld s eng false) ev)
    as [[Hc Hp]|[[Hc Hp]|[Hc Hp]]]; rewrite Hc, Hp; simpl.
  - exists []. rewrite app_nil_r. auto.
  - exists [triggerAttack (key_id k)]. repeat split; auto.
    now rewrite sounding_own.
  - exists [triggerRelease (key_id k)]. repeat split; auto.
    now rewrite sounding_own.
Qed.

Lemma dispatch_mirrors (smp : option Sampler) (keys : list Key)
    (sts : list bool) (ev : PianoKey.WindowEvent) (eng : list EngineCall) :
  NoDup (map key_id keys) ->
  mirrors keys sts eng ->
  mirrors keys
    (fst (dispatch_window (map (key_props smp) keys) sts ev eng))
    (snd (dispatch_window (map (key_props smp) keys) sts ev eng)).
Proof.
  intros Hnd H. revert eng H.
  revert sts. induction keys as [|k ks IH]; intros sts eng H.
  - inversion H. constructor.
  - inversion H as [|? s ? ss Hk Hrest]; subst.
    simpl in Hnd. inversion Hnd as [|? ? Hnotin Hnd']; subst.
    cbn [map dispatch_window].
    destruct (step_mirrors smp k (sounding (key_id k) eng) eng
                (PianoKey.OnWindow ev) eq_refl) as (extra & Hc & Hex & Hp).
    rewrite Hc, Hp.
    assert (mirrors ks ss (eng ++ extra)) as Hrest'.
    { apply mirrors_other_calls; [assumption|].
      eapply Forall_impl; [|exact Hex]. simpl. intros c E. now rewrite E. }
    specialize (IH Hnd' ss (eng ++ extra)%list Hrest').
    destruct (dispatch_window_calls (map (key_props smp) ks) ss ev
                (eng ++ extra)%list) as (more & Hm & Hmore).
    destruct (dispatch_window (map (key_props smp) ks) ss ev _)
      as [sts' eng']. simpl in *. subst eng'.
    constructor; [|assumption].
    rewrite (sounding_other (key_id k) (eng ++ extra) more); [reflexivity|].
    eapply Forall_impl; [|exact Hmore]. simpl. intros c Hc' E.
    apply Hnotin. rewrite <- E. now rewrite map_map in Hc'.
Qed.

Lemma mirrors_step (st : State) (a : Action) :
  ready_state st ->
  (forall kb, keyboard st = Some kb ->
     mirrors allKeys (pressedKeys kb) (engine st)) ->
  forall kb, keyboard (step st a) = Some kb ->
    mirrors allKeys (pressedKeys kb) (engine (step st a)).
Proof.
  destruct st as [l s p k eng d].
  intros (Hl & Hs & Hp & Hd & sts & Hlen & Hk) Hm. simpl in *. subst.
  specialize (Hm _ eq_refl). simpl in Hm.
  destruct a as [|i ev|ev|e]; simpl.
  - intros kb [= <-]. assumption.
  - unfold rendered_keys. simpl. rewrite nth_error_map.
    destruct (nth_error allKeys i) as [k|] eqn:Ek; simpl;
      [|intros kb [= <-]; assumption].
    destruct (nth_error sts i) as [s0|] eqn:Es;
      [|intros kb [= <-]; assumption].
    intros kb [= <-]. simpl.
    pose proof (mirrors_nth allKeys sts eng i k s0 Hm Ek Es) as Hs0.
    destruct (step_mirrors (Some newSampler) k s0 eng (PianoKey.OnButton ev) Hs0)
      as (extra & Hc & Hex & Hpr).
    rewrite Hc, Hpr.
    now apply (mirrors_update allKeys sts eng extra i k _ allKeys_ids_distinct).
  - unfold rendered_keys. simpl.
    pose proof (dispatch_mirrors (Some newSampler) allKeys sts ev eng
                  allKeys_ids_distinct Hm) as Hd.
    destruct (dispatch_window _ sts ev eng) as [sts' eng'].
    intros kb [= <-]. exact Hd.
  - intros kb [= <-]. assumption.
Qed.

Lemma mirrors_run (acts : list Action) :
  forall kb, keyboard (run acts) = Some kb ->
    mirrors allKeys (pressedKeys kb) (engine (run acts)).
Proof.
  assert (forall st,
            st = mount
            \/ (ready_state st
                /\ forall kb, keyboard st = Some kb ->
                     mirrors allKeys (pressedKeys kb) (engine st)) ->
            forall kb,
              keyboard (fold_left step acts st) = Some kb ->
              mirrors allKeys (pressedKeys kb)
                (engine (fold_left step acts st))) as H.
  { induction acts as [|a rest IH]; intros st Hst; simpl.
    - destruct Hst as [->|[_ Hm]]; [discriminate|assumption].
    - apply IH. destruct Hst as [->|[Hr Hm]].
      + destruct (is_loaded a) eqn:Ea.
        * destruct a; try discriminate. right. split; [exact mount_loaded|].
          intros kb [= <-]. apply mirrors_fresh.
        * left. now apply mount_ignores.
      + right. split; [now apply ready_step|now apply mirrors_step]. }
  apply H. now left.
Qed.

(** X12. In every reachable state, each rendered key is shown pressed
    exactly when the last call the engine received for its identifier is an
    attack (and released when it is a release or there is none), however
    mouse, touch and keyboard events on all the keys were interleaved. *)
Theorem pressed_state_mirrors_engine
    (acts : list Action) (i : nat) (k : Key) (s : bool) :
  nth_error allKeys i = Some k ->
  pressed_at (run acts) i = Some s ->
  s = sounding (key_id k) (engine (run acts)).
Proof.
  intros Hi Hp. unfold pressed_at in Hp.
  destruct (keyboard (run acts)) as [kb|] eqn:Ek; [|discriminate].
  exact (mirrors_nth allKeys (pressedKeys kb) _ i k s
           (mirrors_run acts kb Ek) Hi Hp).
Qed.

Lemma pressed_state_mirrors_engine_witness :
  true = sounding "C4"
           (engine (run [SamplesLoaded; Button 12 PianoKey.MouseDown;
                         Button 14 PianoKey.MouseDown;
                         Button 14 PianoKey.MouseUp])).
Proof.
  apply (pressed_state_mirrors_engine
           [SamplesLoaded; Button 12 PianoKey.MouseDown;
            Button 14 PianoKey.MouseDown; Button 14 PianoKey.MouseUp]
           12 (mkKey "C" 4 (Some "q") false) true); reflexivity.
Defined.

End PianoMore.

(** ** More on the tables *)

(** X13. The reverse scan of line 194 yields no binding exactly when no
    scanned entry carries the identifier, and a binding it yields is always
    the physical key of an entry that carries it. *)
Theorem find_key_of_value_missing (es : list (string * string)) (id : string) :
  (JS.find_key_of_value es id = None <-> forall pk, ~ In (pk, id) es)
  /\ (forall pk, JS.find_key_of_value es id = Some pk -> In (pk, id) es).
Proof.
  unfold JS.find_key_of_value. split; [split|].
  - intros H pk Hin.
    destruct (find _ es) as [e|] eqn:E; [discriminate|].
    apply (find_none _ _ E) in Hin. simpl in Hin.
    rewrite String.eqb_refl in Hin. discriminate.
  - intros H. destruct (find _ es) as [[k v]|] eqn:E; [|reflexivity].
    apply find_some in E as [Hin Heq]. simpl in Heq.
    apply String.eqb_eq in Heq. subst v. now elim (H k).
  - intros pk. destruct (find _ es) as [[k v]|] eqn:E; simpl; [|discriminate].
    intros [= ->]. apply find_some in E as [Hin Heq]. simpl in Heq.
    apply String.eqb_eq in Heq. now subst.
Qed.

(** X14. When several entries carry the same identifier the scan keeps the
    first one in enumeration order: an entry is found as soon as no entry
    before it carries the identifier, whatever follows. *)
Theorem find_key_of_value_first_match
    (before after : list (string * string)) (pk id : string) :
  (forall e, In e before -> snd e <> id) ->
  JS.find_key_of_value (before ++ (pk, id) :: after) id = Some pk.
Proof.
  unfold JS.find_key_of_value. intros H.
  induction before as [|[k v] rest IH]; simpl.
  - now rewrite String.eqb_refl.
  - destruct (String.eqb_spec v id) as [->|Hne].
    + now elim (H (k, id) (or_introl eq_refl)).
    + apply IH. intros e He. apply H. now right.
Qed.

Lemma find_key_of_value_first_match_witness :
  JS.find_key_of_value
    ([("2", "C#4")] ++ ("1", "C4") :: [("q", "C4"); ("w", "D4")]) "C4"
  = Some "1".
Proof.
  apply (find_key_of_value_first_match
           [("2", "C#4")] [("q", "C4"); ("w", "D4")] "1" "C4").
  intros e [<-|[]]. simpl. discriminate.
Defined.



